(** * QuadGraph: a graph of four-sided nodes and its rotation-aware cursor

    A shallow embedding of [src/index.js] and the verification of its
    specification.

    Modelling conventions.
    - JavaScript numbers are taken at integer values and modelled as [Z];
      the remainder operator [%] truncates towards zero, which is [Z.rem].
    - A node is a JavaScript array.  Arrays are objects, shared by
      reference: the graph keeps references ([loc]) in [this.nodes], a
      cursor keeps one in [res.node], and [valuePool] is a [Map] keyed by
      the array object itself.  The arrays live in a [heap].
    - The source never tells [null] from [undefined] in a side slot (it
      only tests truthiness and reads through [?.]), so a slot is an
      [option Connection] and a node array is the finite map of its
      occupied slots: [[null, null, null, null]] is the empty map.
    - Reading a property of [undefined] raises a [TypeError]; this is the
      only exception the source can raise. *)

From stdpp Require Import base tactics option list numbers gmap strings.

Local Open Scope Z_scope.

(** ** Data *)

(** A reference to an array object. *)
Definition loc := positive.

(** The object literal [{ num: ..., side: ... }] written by [link]. *)
Record Connection := mkConnection { num : Z; side : Z }.

#[global] Instance Connection_eq_dec : EqDecision Connection.
Proof. solve_decision. Defined.

(** A node array, as the map from side to the connection stored there. *)
Abbreviation Node := (gmap Z Connection).

(** The payload of a node. *)
Definition Value := string.

(** The object built by [new QuadGraph(nodes)], together with the array
    objects its store refers to.  A key of [valuePool] is a node array or
    [undefined] ([None]). *)
Record QuadGraph := mkQuadGraph {
  heap : gmap loc Node;
  nodes : list loc;
  valuePool : gmap (option loc) Value
}.

(** The object returned by [build]. *)
Record Cursor := mkCursor { index : Z; node : option loc; turn : Z }.

#[global] Instance Cursor_eq_dec : EqDecision Cursor.
Proof. solve_decision. Defined.

(** The values [link] and [unlink] can return; a function that ends
    without a [return] statement returns [undefined]. *)
Inductive jsval := js_false | js_true | js_undefined.

#[global] Instance jsval_eq_dec : EqDecision jsval.
Proof. solve_decision. Defined.

Definition is_boolean (v : jsval) : bool :=
  match v with js_false | js_true => true | js_undefined => false end.

Definition truthy (v : jsval) : bool :=
  match v with js_true => true | js_false | js_undefined => false end.

(** ** The monad of methods: a state, or a [TypeError] *)

Inductive Res (A : Type) : Type :=
  | Done (a : A) (g : QuadGraph)
  | TypeError.
Arguments Done {A} a g.
Arguments TypeError {A}.

Definition M (A : Type) : Type := QuadGraph → Res A.

#[global] Instance M_ret : MRet M := λ A a g, Done a g.
#[global] Instance M_bind : MBind M := λ A B f m g,
  match m g with
  | Done a g' => f a g'
  | TypeError => TypeError
  end.

(** What a call returned, if it returned. *)
Definition returned {A} (r : Res A) : option A :=
  match r with Done a _ => Some a | TypeError => None end.

(** [arr[i]] on the store: [undefined] off the populated range. *)
Definition nodes_at (ns : list loc) (i : Z) : option loc :=
  if decide (0 ≤ i) then ns !! Z.to_nat i else None.

(** The array behind a reference.  Every reference denotes an array; one
    for which the heap has no entry has never been written, and all its
    slots are empty. *)
Definition deref (h : gmap loc Node) (l : loc) : Node := h !!! l.

(** [this.nodes[i]] *)
Definition get_node (i : Z) : M (option loc) :=
  λ g, Done (nodes_at (nodes g) i) g.

(** [n[s]], where [n] is an array or [undefined]. *)
Definition get_side (n : option loc) (s : Z) : M (option Connection) :=
  λ g, match n with
       | Some l => Done (deref (heap g) l !! s) g
       | None => TypeError
       end.

(** The graph after the array at [l] has had its slot [s] overwritten
    with [v]. *)
Definition store_side (g : QuadGraph) (l : loc) (s : Z) (v : option Connection) : QuadGraph :=
  mkQuadGraph (<[l := partial_alter (λ _, v) s (deref (heap g) l)]> (heap g))
              (nodes g) (valuePool g).

(** [n[s] = v] *)
Definition set_side (n : option loc) (s : Z) (v : option Connection) : M unit :=
  λ g, match n with
       | Some l => Done tt (store_side g l s v)
       | None => TypeError
       end.

(** [this.valuePool.set(k, v)] and [this.valuePool.get(k)] *)
Definition pool_set (k : option loc) (v : Value) : M unit :=
  λ g, Done tt (mkQuadGraph (heap g) (nodes g) (<[k := v]> (valuePool g))).

Definition pool_get (k : option loc) : M (option Value) :=
  λ g, Done (valuePool g !! k) g.

(** The array literal [[null, null, null, null]]: a new array object. *)
Definition new_array : M loc :=
  λ g, let l := fresh (dom (heap g) ∪ list_to_set (nodes g)) in
       Done l (mkQuadGraph (<[l := ∅]> (heap g)) (nodes g) (valuePool g)).

(** [this.nodes.push(n)] *)
Definition push (n : loc) : M unit :=
  λ g, Done tt (mkQuadGraph (heap g) (nodes g ++ [n]) (valuePool g)).

(** A [for] loop over the successive values of its counter. *)
Fixpoint for_each {A} (l : list A) (body : A → M unit) : M unit :=
  match l with
  | [] => mret tt
  | x :: l' => body x ≫= λ _, for_each l' body
  end.

(** ** class QuadGraph *)

(** [constructor(nodes)]: [this.nodes = nodes ?? []], on the heap [h] that
    holds the arrays of [nodes]. *)
Definition constructor (h : gmap loc Node) (ns : option (list loc)) : QuadGraph :=
  mkQuadGraph h (default [] ns) ∅.

(** [get length()] *)
Definition length_ : M Z := λ g, Done (Z.of_nat (length (nodes g))) g.

(** [add(node = [null, null, null, null], value)] *)
Definition add (node0 : option loc) (value : option Value) : M loc :=
  n ← match node0 with Some l => mret l | None => new_array end;
  push n ≫= λ _,
  match value with Some v => pool_set (Some n) v | None => mret tt end ≫= λ _,
  mret n.

(** [setValue(index, value)] *)
Definition setValue (index : Z) (value : Value) : M unit :=
  n ← get_node index;
  pool_set n value.

(** [populate(num)]: [for (var i = 0; i < num; i++) this.add()] *)
Definition populate (num : Z) : M unit :=
  for_each (seqZ 0 num) (λ _, add None None ≫= λ _, mret tt).

(** [link(firstIndex, firstSide, secondIndex, secondSide)] *)
Definition link (firstIndex firstSide secondIndex secondSide : Z) : M jsval :=
  a ← get_node firstIndex;
  x ← get_side a firstSide;
  prev ← match x with
         | Some c => mret (Some c)
         | None => b ← get_node secondIndex; get_side b secondSide
         end;
  if prev is Some _ then mret js_false else
  a ← get_node firstIndex;
  set_side a firstSide (Some (mkConnection secondIndex secondSide)) ≫= λ _,
  b ← get_node secondIndex;
  set_side b secondSide (Some (mkConnection firstIndex firstSide)) ≫= λ _,
  mret js_undefined.

(** [unlink(firstIndex, firstSide, secondIndex, secondSide)] *)
Definition unlink (firstIndex firstSide secondIndex secondSide : Z) : M jsval :=
  a ← get_node firstIndex;
  x ← get_side a firstSide;
  if decide (num <$> x ≠ Some secondIndex) then mret js_false else
  b ← get_node secondIndex;
  y ← get_side b secondSide;
  if decide (num <$> y ≠ Some firstIndex) then mret js_false else
  a ← get_node firstIndex;
  set_side a firstSide None ≫= λ _,
  b ← get_node secondIndex;
  set_side b secondSide None ≫= λ _,
  mret js_undefined.

(** [build(index, turn = 0)]: the fields of the returned object; its
    methods follow. *)
Definition build (index : Z) (turn : Z) : M Cursor :=
  n ← get_node index;
  mret (mkCursor index n turn).

(** [res.next(i)].  When [connection] is [null], [newIndex] is
    [undefined] and [nodes[undefined]] is [undefined]. *)
Definition next (res : Cursor) (i : Z) : M (option Cursor) :=
  connection ← get_side (node res) (Z.rem (i + turn res) 4);
  match connection with
  | None => mret None
  | Some c =>
      let newIndex := num c in
      let newTurn := Z.rem (side c + 2 - i + 4) 4 in
      n ← get_node newIndex;
      if n is Some _
      then res' ← build newIndex newTurn; mret (Some res')
      else mret None
  end.

(** [get value()] and [set value(value)] *)
Definition value (res : Cursor) : M (option Value) := pool_get (node res).

Definition set_value (res : Cursor) (v : Value) : M unit := pool_set (node res) v.

(** [get right()], [get down()], [get left()], [get up()] *)
Definition right (res : Cursor) : M (option Cursor) := next res 0.
Definition down (res : Cursor) : M (option Cursor) := next res 1.
Definition left (res : Cursor) : M (option Cursor) := next res 2.
Definition up (res : Cursor) : M (option Cursor) := next res 3.

(** The body of the inner loop of [grid], for column [i] and row [j]. *)
Definition grid_cell (width i j : Z) : M unit :=
  let index := i + j * width in
  (if decide (0 < i) then link index 3 (index - 1) 1 ≫= λ _, mret tt
   else mret tt) ≫= λ _,
  (if decide (0 < j) then link index 2 (index - width) 0 ≫= λ _, mret tt
   else mret tt).

(** [static grid(width, height)], run on the graph made by
    [new QuadGraph()]; the graph returned is the final state. *)
Definition grid (width height : Z) : Res unit :=
  (populate (width * height) ≫= λ _,
   for_each (seqZ 0 width) (λ i,
     for_each (seqZ 0 height) (λ j, grid_cell width i j)))
  (constructor ∅ None).

(** ** The demonstration at the end of the file *)

(** The four array literals passed to the constructor. *)
Definition demo_heap : gmap loc Node :=
  <[4%positive := ∅]> (<[3%positive := ∅]> (<[2%positive := ∅]> (<[1%positive := ∅]> ∅))).

Definition demo_nodes : list loc := [1; 2; 3; 4]%positive.

(** Lines 198 to 225: the links and the values. *)
Definition demo_script : M unit :=
  link 0 0 1 2 ≫= λ _,
  link 1 0 2 2 ≫= λ _,
  link 0 1 2 3 ≫= λ _,
  link 2 1 0 3 ≫= λ _,
  link 2 0 3 2 ≫= λ _,
  link 3 0 2 2 ≫= λ _,
  link 1 1 3 3 ≫= λ _,
  link 3 1 1 3 ≫= λ _,
  setValue 0 "node 0" ≫= λ _,
  setValue 1 "node 1" ≫= λ _,
  setValue 2 "node 2" ≫= λ _,
  setValue 3 "node 3".

Definition demo : Res unit := demo_script (constructor demo_heap (Some demo_nodes)).

(** The graph the demonstration leaves. *)
Definition demo_linked : QuadGraph :=
  match demo with
  | Done _ g => g
  | TypeError => constructor demo_heap (Some demo_nodes)
  end.

(** [Node[k].side[s]] as the specification writes it: the connection in
    slot [s] of the node at index [k], if the index is populated and the
    slot occupied. *)
Definition side_at (g : QuadGraph) (k s : Z) : option Connection :=
  n ← nodes_at (nodes g) k; deref (heap g) n !! s.

(** A store that holds each of its arrays once, all slots of all of them
    empty. *)
Definition blank_store (g : QuadGraph) : Prop :=
  NoDup (nodes g) ∧ ∀ l, l ∈ nodes g → deref (heap g) l = ∅.

(** The slots as the loops of [grid] have filled them once the cells
    whose index is in [done] have been handled: slot [s] of the node at
    index [k]. *)
Definition expected (width : Z) (done : gset Z) (k s : Z) : option Connection :=
  if decide (s = 3) then
    if decide (0 < k mod width ∧ k ∈ done)
    then Some (mkConnection (k - 1) 1) else None
  else if decide (s = 1) then
    if decide (0 < (k + 1) mod width ∧ k + 1 ∈ done)
    then Some (mkConnection (k + 1) 3) else None
  else if decide (s = 2) then
    if decide (width ≤ k ∧ k ∈ done)
    then Some (mkConnection (k - width) 0) else None
  else if decide (s = 0) then
    if decide (k + width ∈ done)
    then Some (mkConnection (k + width) 2) else None
  else None.

(** The invariant of the loops of [grid]. *)
Definition wired (width height : Z) (done : gset Z) (g : QuadGraph) : Prop :=
  NoDup (nodes g)
  ∧ Z.of_nat (length (nodes g)) = width * height
  ∧ valuePool g = ∅
  ∧ ∀ k s, 0 ≤ k < width * height → side_at g k s = expected width done k s.

(** The index of the cell in column [i] and row [j]. *)
Definition cell_index (width i j : Z) : Z := i + j * width.

(** The cells of the columns [cols], all rows of each. *)
Definition column_cells (w h : Z) (cols : list Z) : list Z :=
  i ← cols; cell_index w i <$> seqZ 0 h.

(** The relative direction that leads back: the opposite one. *)
Definition reverse (d : Z) : Z := (d + 2) mod 4.

(** A walk: [next] after [next], one call for each direction of the list;
    [None] once a call has returned [null]. *)
Fixpoint walk (res : Cursor) (ds : list Z) : M (option Cursor) :=
  match ds with
  | [] => mret (Some res)
  | d :: ds' =>
      r ← next res d;
      match r with
      | Some res' => walk res' ds'
      | None => mret None
      end
  end.

(** Two unlinked nodes, and the same two nodes joined twice, side 0 to
    side 2 and side 1 to side 3: the graphs of the examples below. *)
Definition two_nodes : QuadGraph :=
  constructor (<[2%positive := ∅]> (<[1%positive := ∅]> ∅)) (Some [1; 2]%positive).

Definition twice_linked : Res jsval :=
  (link 0 0 1 2 ≫= λ _, link 0 1 1 3) two_nodes.

(** A store built on one array literal passed twice:
    [var n = [null, null, null, null]; new QuadGraph([n, n])]. *)
Definition one_array_twice : QuadGraph :=
  constructor (<[1%positive := ∅]> ∅) (Some [1; 1]%positive).

(** The two nodes joined once, side 0 of node 0 to side 2 of node 1. *)
Definition once_linked : QuadGraph :=
  store_side (store_side two_nodes 1%positive 0 (Some (mkConnection 1 2)))
             2%positive 2 (Some (mkConnection 0 0)).

(** The header of the file: each connection is a bi-directional
    reference.  The slot a connection names holds the connection that
    leads back. *)
Definition symmetric (g : QuadGraph) : Prop :=
  ∀ k s c, side_at g k s = Some c →
           side_at g (num c) (side c) = Some (mkConnection k s).

(** Every connection of the store names one of the sides 0, 1, 2, 3. *)
Definition sides_in_range (g : QuadGraph) : Prop :=
  ∀ k s c, side_at g k s = Some c → 0 ≤ side c < 4.

(** The three properties every call of [link] keeps. *)
Definition sound_store (g : QuadGraph) : Prop :=
  NoDup (nodes g) ∧ symmetric g ∧ sides_in_range g.

(** The cursor [build(k, t)] returns, wrapped as the result of a
    [next]. *)
Definition arrive (k t : Z) : M (option Cursor) :=
  res ← build k t; mret (Some res).

(** ** Running the methods *)

Ltac run :=
  repeat (progress (unfold link, unlink, build, next, setValue, value,
                      get_node, get_side, set_side, pool_set, pool_get,
                      mbind, M_bind, mret, M_ret in *; simpl in * )).

Lemma nodes_at_inj ns i j l :
  NoDup ns → nodes_at ns i = Some l → nodes_at ns j = Some l → i = j.
Proof.
  unfold nodes_at. intros Hnd Hi Hj.
  repeat case_decide; try discriminate.
  pose proof (NoDup_lookup ns _ _ l Hnd Hi Hj). lia.
Qed.

Lemma nodes_at_length ns i l :
  nodes_at ns i = Some l → 0 ≤ i < Z.of_nat (length ns).
Proof.
  unfold nodes_at. case_decide; [|discriminate].
  intros Hl%lookup_lt_Some. lia.
Qed.

Lemma nodes_at_is_Some ns i :
  0 ≤ i < Z.of_nat (length ns) → is_Some (nodes_at ns i).
Proof.
  intros H. unfold nodes_at. rewrite decide_True by lia.
  apply lookup_lt_is_Some. lia.
Qed.

(** What a write into a node array changes in the slots of the store. *)
Lemma side_at_store_side g a l s v k s' :
  NoDup (nodes g) → nodes_at (nodes g) a = Some l →
  side_at (store_side g l s v) k s' =
    if decide (k = a ∧ s' = s) then v else side_at g k s'.
Proof.
  intros Hnd Ha. unfold side_at, store_side, deref. simpl.
  destruct (nodes_at (nodes g) k) as [lk|] eqn:Hk; simpl.
  - destruct (decide (lk = l)) as [->|Hne].
    + assert (k = a) as -> by eauto using nodes_at_inj.
      rewrite lookup_total_insert_eq, lookup_partial_alter.
      destruct (decide (s = s')) as [->|Hs].
      * by rewrite decide_True.
      * rewrite decide_False; [done|]. intros [_ ->]. done.
    + rewrite lookup_total_insert_ne by done.
      rewrite decide_False; [done|]. intros [-> _]. congruence.
  - rewrite decide_False; [done|]. intros [-> _]. congruence.
Qed.

Lemma side_at_Some_node g k s c :
  side_at g k s = Some c → is_Some (nodes_at (nodes g) k).
Proof. unfold side_at. destruct (nodes_at _ _); [eauto | discriminate]. Qed.

(** [link] on two populated indices whose slots are both empty. *)
Lemma link_free g a sa b sb la lb :
  nodes_at (nodes g) a = Some la → nodes_at (nodes g) b = Some lb →
  side_at g a sa = None → side_at g b sb = None →
  link a sa b sb g =
    Done js_undefined
      (store_side (store_side g la sa (Some (mkConnection b sb)))
                  lb sb (Some (mkConnection a sa))).
Proof.
  unfold side_at. intros Ha Hb. rewrite Ha, Hb. simpl. intros Hsa Hsb.
  run. rewrite Ha. simpl. rewrite Hsa, Hb. simpl. rewrite Hsb.
  rewrite Ha. simpl. rewrite Hb. done.
Qed.

(** ** link *)

(** [link] into an occupied slot. *)
Lemma link_occupied_no_mutation_aux g a sa b sb :
  is_Some (nodes_at (nodes g) a) → is_Some (nodes_at (nodes g) b) →
  is_Some (side_at g a sa) ∨ is_Some (side_at g b sb) →
  link a sa b sb g = Done js_false g.
Proof.
  intros [la Ha] [lb Hb]. unfold side_at. rewrite Ha, Hb. simpl.
  intros Hocc. run. rewrite Ha. simpl.
  destruct (deref (heap g) la !! sa) as [ca|] eqn:Hsa; [done|].
  rewrite Hb. simpl.
  destruct Hocc as [[? [=]]|[cb Hsb]]. by rewrite Hsb.
Qed.

(** C4: when either endpoint's slot is already occupied, [link] on two
    populated indices returns [false] and the graph it leaves is the graph
    it was given: no slot of either endpoint, nor anything else, has
    changed. *)
Theorem link_occupied_no_mutation g a sa b sb :
  is_Some (nodes_at (nodes g) a) → is_Some (nodes_at (nodes g) b) →
  is_Some (side_at g a sa) ∨ is_Some (side_at g b sb) →
  ∃ g', link a sa b sb g = Done js_false g'
        ∧ g' = g
        ∧ side_at g' a sa = side_at g a sa
        ∧ side_at g' b sb = side_at g b sb.
Proof.
  intros Ha Hb Hocc. exists g.
  by rewrite link_occupied_no_mutation_aux.
Qed.

Lemma link_occupied_no_mutation_witness :
  ∃ g', link 0 1 1 2 demo_linked = Done js_false g'
        ∧ g' = demo_linked
        ∧ side_at g' 0 1 = side_at demo_linked 0 1
        ∧ side_at g' 1 2 = side_at demo_linked 1 2.
Proof.
  apply link_occupied_no_mutation.
  - vm_compute. eauto.
  - vm_compute. eauto.
  - left. vm_compute. eauto.
Defined.

(** C3, as the code has it: a [link] between two populated indices whose
    slots are both empty completes, and afterwards slot [sa] of node [a]
    holds the connection to [(b, sb)] and slot [sb] of node [b] holds the
    connection to [(a, sa)], both reciprocal connections and never one
    alone, provided the two endpoints are not one slot of one array
    reached through two different indices: [a = b], or [sa ≠ sb], or the
    two indices hold different arrays, as they do on every store that
    holds each array once. *)
Theorem link_symmetry g a sa b sb :
  is_Some (nodes_at (nodes g) a) → is_Some (nodes_at (nodes g) b) →
  side_at g a sa = None → side_at g b sb = None →
  a = b ∨ sa ≠ sb ∨ nodes_at (nodes g) a ≠ nodes_at (nodes g) b
  ∨ NoDup (nodes g) →
  ∃ g', link a sa b sb g = Done js_undefined g'
        ∧ side_at g' a sa = Some (mkConnection b sb)
        ∧ side_at g' b sb = Some (mkConnection a sa).
Proof.
  intros [la Ha] [lb Hb] Hsa Hsb Hslots.
  eexists. split; [by apply (link_free g a sa b sb la lb)|].
  unfold side_at, store_side, deref. simpl. rewrite Ha, Hb. simpl.
  rewrite !lookup_total_insert_eq, lookup_partial_alter_eq.
  split; [|done].
  destruct (decide (la = lb)) as [->|Hl].
  - rewrite lookup_total_insert_eq, lookup_partial_alter.
    destruct (decide (sb = sa)) as [->|Hs];
      [|by rewrite lookup_total_insert_eq, lookup_partial_alter_eq].
    destruct Hslots as [->|[?|[Hne|Hnd]]]; [done|done| |].
    + by rewrite Ha, Hb in Hne.
    + by rewrite (nodes_at_inj _ a b lb Hnd Ha Hb).
  - rewrite lookup_total_insert_ne by done.
    by rewrite lookup_total_insert_eq, lookup_partial_alter_eq.
Qed.

Lemma link_symmetry_witness :
  ∃ g', link 0 0 1 2 two_nodes = Done js_undefined g'
        ∧ side_at g' 0 0 = Some (mkConnection 1 2)
        ∧ side_at g' 1 2 = Some (mkConnection 0 0).
Proof.
  apply link_symmetry.
  - vm_compute. eauto.
  - vm_compute. eauto.
  - reflexivity.
  - reflexivity.
  - right. left. lia.
Defined.

(** C3, as stated, fails: on a store that holds one array at the indices
    0 and 1, [link(0, 0, 1, 0)] finds both indices populated and both
    slots empty and goes through; the two writes fall on the same slot of
    the same array, and slot 0 of node 0 holds the connection to
    [(0, 0)], not the one to [(1, 0)]. *)
Lemma link_on_shared_array :
  is_Some (nodes_at (nodes one_array_twice) 0)
  ∧ is_Some (nodes_at (nodes one_array_twice) 1)
  ∧ side_at one_array_twice 0 0 = None
  ∧ side_at one_array_twice 1 0 = None
  ∧ ∃ g', link 0 0 1 0 one_array_twice = Done js_undefined g'
          ∧ side_at g' 0 0 = Some (mkConnection 0 0)
          ∧ side_at g' 0 0 ≠ Some (mkConnection 1 0).
Proof.
  split_and!; [vm_compute; eauto..|reflexivity|reflexivity|].
  eexists. split_and!; [reflexivity|reflexivity|]. vm_compute. intros [=].
Qed.

(** ** The cursor *)

Lemma rem_mod_4 z : 0 ≤ z → Z.rem z 4 = z mod 4.
Proof. intros. apply Z.rem_mod_nonneg; lia. Qed.

(** [next] on a cursor bound to the node at a populated index. *)
Lemma next_run g idx l t d :
  nodes_at (nodes g) idx = Some l →
  0 ≤ t < 4 → 0 ≤ d < 4 →
  (∀ c, side_at g idx ((d + t) mod 4) = Some c → 0 ≤ side c < 4) →
  next (mkCursor idx (Some l) t) d g =
    Done (match side_at g idx ((d + t) mod 4) with
          | None => None
          | Some c =>
              match nodes_at (nodes g) (num c) with
              | Some n =>
                  Some (mkCursor (num c) (Some n) ((side c + 2 - d + 4) mod 4))
              | None => None
              end
          end) g.
Proof.
  intros Hl Ht Hd. unfold side_at. rewrite Hl. simpl. intros Hside.
  run. rewrite rem_mod_4 by lia.
  destruct (deref (heap g) l !! ((d + t) mod 4)) as [c|]; [|done].
  specialize (Hside c eq_refl). rewrite rem_mod_4 by lia.
  destruct (nodes_at (nodes g) (num c)) as [n|] eqn:Hn; [|done].
  by rewrite Hn.
Qed.

(** C2: for a cursor bound to the node at a populated index, with turn
    and relative direction in 0..3, [next(d)] reads the slot at absolute
    side [(d + turn) mod 4].  An empty slot gives [null].  A connection
    [(target, targetSide)] gives, when [target] is populated, the cursor at
    [target] with turn [(targetSide + 2 - d + 4) mod 4], and [null] when
    it is not.  Stored sides are in 0..3, as the data model has them. *)
Theorem next_spec g idx l t d :
  nodes_at (nodes g) idx = Some l →
  0 ≤ t < 4 → 0 ≤ d < 4 →
  (∀ c, side_at g idx ((d + t) mod 4) = Some c → 0 ≤ side c < 4) →
  ∃ r, next (mkCursor idx (Some l) t) d g = Done r g
       ∧ match side_at g idx ((d + t) mod 4) with
         | None => r = None
         | Some c =>
             match nodes_at (nodes g) (num c) with
             | Some n =>
                 r = Some (mkCursor (num c) (Some n) ((side c + 2 - d + 4) mod 4))
                 ∧ build (num c) ((side c + 2 - d + 4) mod 4) g
                   = Done (mkCursor (num c) (Some n) ((side c + 2 - d + 4) mod 4)) g
             | None => r = None
             end
         end.
Proof.
  intros Hl Ht Hd Hside. eexists. split; [by apply next_run|].
  destruct (side_at g idx ((d + t) mod 4)) as [c|]; [|done].
  destruct (nodes_at (nodes g) (num c)) as [n|] eqn:Hn; [|done].
  split; [done|]. run. by rewrite Hn.
Qed.

Lemma next_spec_witness :
  ∃ r, next (mkCursor 0 (Some 1%positive) 3) 2 demo_linked = Done r demo_linked
       ∧ match side_at demo_linked 0 ((2 + 3) mod 4) with
         | None => r = None
         | Some c =>
             match nodes_at (nodes demo_linked) (num c) with
             | Some n =>
                 r = Some (mkCursor (num c) (Some n) ((side c + 2 - 2 + 4) mod 4))
                 ∧ build (num c) ((side c + 2 - 2 + 4) mod 4) demo_linked
                   = Done (mkCursor (num c) (Some n) ((side c + 2 - 2 + 4) mod 4))
                          demo_linked
             | None => r = None
             end
         end.
Proof.
  apply (next_spec demo_linked 0 1%positive 3 2).
  - reflexivity.
  - lia.
  - lia.
  - vm_compute. intros c [= <-]. simpl. split; [intros [=] | reflexivity].
Defined.

(** A side, turn or direction is one of 0, 1, 2, 3. *)
Ltac side_cases z :=
  match goal with
  | H : 0 ≤ z < 4 |- _ =>
      assert (z = 0 ∨ z = 1 ∨ z = 2 ∨ z = 3) as [ -> | [ -> | [ -> | -> ] ] ] by lia;
      clear H
  end.

(** C5: let slots [(a, sa)] and [(b, sb)] hold the two connections of a
    link, and let a cursor at [a] have a turn that maps relative direction
    [d] to side [sa].  Then [next(d)] yields a cursor at [b]; on it the
    reverse direction [reverse d] maps to side [sb], and [next(reverse d)]
    yields a cursor at index [a] again, bound to the same node, hence with
    the value of the original cursor (here the turn is the original one
    too). *)
Theorem traversal_inverse g a sa b sb la t d :
  nodes_at (nodes g) a = Some la →
  side_at g a sa = Some (mkConnection b sb) →
  side_at g b sb = Some (mkConnection a sa) →
  0 ≤ sb < 4 → 0 ≤ t < 4 → 0 ≤ d < 4 →
  (d + t) mod 4 = sa →
  ∃ res1 res2,
    next (mkCursor a (Some la) t) d g = Done (Some res1) g
    ∧ index res1 = b
    ∧ (reverse d + turn res1) mod 4 = sb
    ∧ next res1 (reverse d) g = Done (Some res2) g
    ∧ index res2 = a
    ∧ value res2 g = value (mkCursor a (Some la) t) g
    ∧ res2 = mkCursor a (Some la) t.
Proof.
  intros Ha Hsa Hsb Hrb Ht Hd Hmod.
  destruct (side_at_Some_node _ _ _ _ Hsb) as [lb Hb].
  assert (0 ≤ sa < 4) as Hra by (subst sa; apply Z.mod_pos_bound; lia).
  assert (0 ≤ reverse d < 4) as Hrd by (apply Z.mod_pos_bound; lia).
  assert ((reverse d + (sb + 2 - d + 4) mod 4) mod 4 = sb) as Hback
    by (unfold reverse; side_cases sb; side_cases d; reflexivity).
  assert ((sa + 2 - reverse d + 4) mod 4 = t) as Hturn
    by (unfold reverse; subst sa; side_cases t; side_cases d; reflexivity).
  exists (mkCursor b (Some lb) ((sb + 2 - d + 4) mod 4)), (mkCursor a (Some la) t).
  assert (0 ≤ (sb + 2 - d + 4) mod 4 < 4) as Ht1 by (apply Z.mod_pos_bound; lia).
  split_and!; try done.
  - rewrite (next_run g a la t d) by (try done; rewrite Hmod, Hsa; by intros ? [= <-]).
    rewrite Hmod, Hsa. simpl. by rewrite Hb.
  - rewrite (next_run g b lb _ (reverse d));
      try done; rewrite Hback, Hsb; [|by intros ? [= <-]].
    simpl. by rewrite Ha, Hturn.
Qed.

Lemma traversal_inverse_witness :
  ∃ res1 res2,
    next (mkCursor 0 (Some 1%positive) 3) 2 demo_linked = Done (Some res1) demo_linked
    ∧ index res1 = 2
    ∧ (reverse 2 + turn res1) mod 4 = 3
    ∧ next res1 (reverse 2) demo_linked = Done (Some res2) demo_linked
    ∧ index res2 = 0
    ∧ value res2 demo_linked = value (mkCursor 0 (Some 1%positive) 3) demo_linked
    ∧ res2 = mkCursor 0 (Some 1%positive) 3.
Proof.
  apply (traversal_inverse demo_linked 0 1 2 3 1%positive 3 2);
    first [reflexivity | lia].
Defined.

(** C10: [next(d)], and with it the accessors [right], [down], [left] and
    [up], leaves the graph as it found it: whenever the call returns, the
    graph after it (node store, side slots of every node, value pool) is
    the graph before it, and on a cursor bound to a node the call does
    return. *)
Theorem next_frame res g :
  (∀ d, is_Some (node res) → ∃ r, next res d g = Done r g)
  ∧ (∀ d r g', next res d g = Done r g' → g' = g)
  ∧ (∀ r g', right res g = Done r g' → g' = g)
  ∧ (∀ r g', down res g = Done r g' → g' = g)
  ∧ (∀ r g', left res g = Done r g' → g' = g)
  ∧ (∀ r g', up res g = Done r g' → g' = g).
Proof.
  assert (∀ d r g', next res d g = Done r g' → g' = g) as Hframe.
  { intros d r g'. run. destruct (node res) as [l|]; [|done].
    destruct (deref (heap g) l !! _) as [c|]; [|congruence].
    destruct (nodes_at (nodes g) (num c)); congruence. }
  split; [|split_and!; [done|intros r g'; apply Hframe..]].
  intros d [l Hl]. run. rewrite Hl.
  destruct (deref (heap g) l !! _) as [c|]; [|eauto].
  destruct (nodes_at (nodes g) (num c)); eauto.
Qed.

Lemma next_frame_witness :
  ∃ r, next (mkCursor 0 (Some 1%positive) 0) 1 demo_linked = Done r demo_linked.
Proof.
  apply (proj1 (next_frame (mkCursor 0 (Some 1%positive) 0) demo_linked) 1).
  simpl. eauto.
Defined.

(** ** unlink *)

(** C1: on the graph where node 0 is joined to node 1 twice (side 0 to
    side 2, side 1 to side 3), [unlink(0, 0, 1, 3)] names two slots that
    hold connections to the right nodes but to other sides.  The call
    does not return [false]: it clears both slots, and the two partner
    slots keep connections to slots that are now empty. *)
Theorem unlink_ignores_sides :
  ∃ g g',
    twice_linked = Done js_undefined g
    ∧ side_at g 0 0 = Some (mkConnection 1 2)
    ∧ side_at g 1 3 = Some (mkConnection 0 1)
    ∧ unlink 0 0 1 3 g = Done js_undefined g'
    ∧ side_at g' 0 0 = None
    ∧ side_at g' 1 3 = None
    ∧ side_at g' 1 2 = Some (mkConnection 0 0)
    ∧ side_at g' 0 1 = Some (mkConnection 1 3).
Proof. do 2 eexists. split_and!; reflexivity. Qed.

(** What [unlink] does on two populated indices: it compares the [num]
    of the two connections and nothing else. *)
Lemma unlink_run g a sa b sb la lb :
  nodes_at (nodes g) a = Some la → nodes_at (nodes g) b = Some lb →
  unlink a sa b sb g =
    if decide (num <$> side_at g a sa = Some b ∧ num <$> side_at g b sb = Some a)
    then Done js_undefined (store_side (store_side g la sa None) lb sb None)
    else Done js_false g.
Proof.
  intros Ha Hb. unfold side_at. rewrite Ha, Hb. simpl. run. rewrite Ha. simpl.
  destruct (decide (num <$> deref (heap g) la !! sa ≠ Some b)) as [Hx|Hx].
  { rewrite decide_False; [done|]. by intros [? _]. }
  apply dec_stable in Hx. rewrite Hb. simpl.
  destruct (decide (num <$> deref (heap g) lb !! sb ≠ Some a)) as [Hy|Hy].
  { rewrite decide_False; [done|]. by intros [_ ?]. }
  apply dec_stable in Hy. rewrite decide_True by done.
  rewrite Ha. simpl. by rewrite Hb.
Qed.

(** What [link] does on two populated indices. *)
Lemma link_run g a sa b sb la lb :
  nodes_at (nodes g) a = Some la → nodes_at (nodes g) b = Some lb →
  link a sa b sb g =
    if decide (side_at g a sa = None ∧ side_at g b sb = None)
    then Done js_undefined
           (store_side (store_side g la sa (Some (mkConnection b sb)))
                       lb sb (Some (mkConnection a sa)))
    else Done js_false g.
Proof.
  intros Ha Hb. case_decide as Hfree.
  - destruct Hfree. by apply link_free.
  - apply link_occupied_no_mutation_aux; [eauto..|].
    destruct (side_at g a sa) eqn:?; [eauto|].
    destruct (side_at g b sb) eqn:?; [eauto|]. by destruct Hfree.
Qed.

(** C8, as the code has it: on two populated indices [link] and [unlink]
    return [false], leaving the graph as it was, when they fail: for
    [link] a slot already occupied, for [unlink] a slot that is empty or
    whose connection names another node index.  When they succeed ([link]
    on two empty slots, [unlink] on two slots that hold exactly the
    connections named) they return [undefined], which is neither a boolean
    nor a true value. *)
Theorem link_unlink_return g a sa b sb :
  is_Some (nodes_at (nodes g) a) → is_Some (nodes_at (nodes g) b) →
  (is_Some (side_at g a sa) ∨ is_Some (side_at g b sb) →
     link a sa b sb g = Done js_false g)
  ∧ (side_at g a sa = None ∧ side_at g b sb = None →
     returned (link a sa b sb g) = Some js_undefined)
  ∧ (num <$> side_at g a sa ≠ Some b ∨ num <$> side_at g b sb ≠ Some a →
     unlink a sa b sb g = Done js_false g)
  ∧ (side_at g a sa = Some (mkConnection b sb)
     ∧ side_at g b sb = Some (mkConnection a sa) →
     returned (unlink a sa b sb g) = Some js_undefined)
  ∧ is_boolean js_undefined = false ∧ truthy js_undefined = false.
Proof.
  intros [la Ha] [lb Hb].
  rewrite (link_run g a sa b sb la lb), (unlink_run g a sa b sb la lb) by done.
  split_and!; try done.
  - intros Hocc. rewrite decide_False; [done|].
    intros [Hsa Hsb]. rewrite Hsa, Hsb in Hocc.
    destruct Hocc as [[? [=]]|[? [=]]].
  - intros Hfree. by rewrite decide_True.
  - intros Hdiff. rewrite decide_False; [done|]. tauto.
  - intros [Hsa Hsb]. rewrite decide_True; [done|]. by rewrite Hsa, Hsb.
Qed.

Lemma link_unlink_return_witness :
  (is_Some (side_at demo_linked 0 3) ∨ is_Some (side_at demo_linked 2 1) →
     link 0 3 2 1 demo_linked = Done js_false demo_linked)
  ∧ (side_at demo_linked 0 3 = None ∧ side_at demo_linked 2 1 = None →
     returned (link 0 3 2 1 demo_linked) = Some js_undefined)
  ∧ (num <$> side_at demo_linked 0 3 ≠ Some 2
     ∨ num <$> side_at demo_linked 2 1 ≠ Some 0 →
     unlink 0 3 2 1 demo_linked = Done js_false demo_linked)
  ∧ (side_at demo_linked 0 3 = Some (mkConnection 2 1)
     ∧ side_at demo_linked 2 1 = Some (mkConnection 0 3) →
     returned (unlink 0 3 2 1 demo_linked) = Some js_undefined)
  ∧ is_boolean js_undefined = false ∧ truthy js_undefined = false.
Proof.
  apply link_unlink_return.
  - vm_compute. eauto.
  - vm_compute. eauto.
Defined.

(** C8, as stated, fails: this [link] succeeds, writing both connections,
    and the value it returns is no boolean and no true value. *)
Lemma link_success_returns_undefined :
  ∃ v g', link 0 0 1 2 two_nodes = Done v g'
          ∧ side_at g' 0 0 = Some (mkConnection 1 2)
          ∧ side_at g' 1 2 = Some (mkConnection 0 0)
          ∧ is_boolean v = false ∧ truthy v = false.
Proof. do 2 eexists. split_and!; reflexivity. Qed.

(** ** Indices off the store *)

(** C7, as the code has it: for an index off the store neither call
    fails.  [setValue] records the value in the pool under the key
    [undefined] and changes nothing else; [build] returns a cursor with
    that index and no node, whose [value] reads the entry under the key
    [undefined] and whose [next] raises a [TypeError]. *)
Theorem out_of_range_behaviour g idx v t :
  nodes_at (nodes g) idx = None →
  setValue idx v g =
    Done tt (mkQuadGraph (heap g) (nodes g) (<[None := v]> (valuePool g)))
  ∧ build idx t g = Done (mkCursor idx None t) g
  ∧ value (mkCursor idx None t) g = Done (valuePool g !! None) g
  ∧ ∀ d, next (mkCursor idx None t) d g = TypeError.
Proof. intros Hidx. run. by rewrite Hidx. Qed.

Lemma out_of_range_behaviour_witness :
  setValue 7 "lost" two_nodes =
    Done tt (mkQuadGraph (heap two_nodes) (nodes two_nodes)
                         (<[None := "lost"]> (valuePool two_nodes)))
  ∧ build 7 0 two_nodes = Done (mkCursor 7 None 0) two_nodes
  ∧ value (mkCursor 7 None 0) two_nodes = Done (valuePool two_nodes !! None) two_nodes
  ∧ ∀ d, next (mkCursor 7 None 0) d two_nodes = TypeError.
Proof. apply out_of_range_behaviour. reflexivity. Defined.

(** C7, as stated, fails: index 7 is off a store of two nodes, yet
    [setValue] returns normally and has recorded the value, and [build]
    returns a cursor through which that value is read back. *)
Lemma out_of_range_is_silent :
  nodes_at (nodes two_nodes) 7 = None
  ∧ ∃ g' res,
      setValue 7 "lost" two_nodes = Done tt g'
      ∧ valuePool g' !! None = Some "lost"
      ∧ build 7 0 g' = Done res g'
      ∧ value res g' = Done (Some "lost") g'.
Proof. split; [reflexivity|]. do 2 eexists. split_and!; reflexivity. Qed.

(** ** The demonstration *)

(** C6: the script runs; the cursor built at index 0 has the value
    ["node 0"].  But the sixth [link], between [(3, 0)] and [(2, 2)],
    finds slot [(2, 2)] taken by the second one and returns [false]; side
    2 of node 0 and side 0 of node 3 are left empty, and [next(2)] on the
    cursor at index 0 returns [null]. *)
Theorem demo_dead_end :
  ∃ g res,
    demo = Done tt g
    ∧ build 0 0 g = Done res g
    ∧ value res g = Done (Some "node 0") g
    ∧ returned
        ((link 0 0 1 2 ≫= λ _, link 1 0 2 2 ≫= λ _, link 0 1 2 3 ≫= λ _,
          link 2 1 0 3 ≫= λ _, link 2 0 3 2 ≫= λ _, link 3 0 2 2)
           (constructor demo_heap (Some demo_nodes))) = Some js_false
    ∧ side_at g 0 2 = None
    ∧ side_at g 3 0 = None
    ∧ next res 2 g = Done None g
    ∧ walk res [2] g = Done None g.
Proof.
  exists demo_linked, (mkCursor 0 (Some 1%positive) 0).
  split_and!; vm_compute; reflexivity.
Qed.

(** ** grid *)

(** [add()] appends a new array, all of whose slots are empty. *)
Lemma add_default g :
  ∃ l, add None None g =
         Done l (mkQuadGraph (<[l := ∅]> (heap g)) (nodes g ++ [l]) (valuePool g))
       ∧ l ∉ nodes g.
Proof.
  eexists. split; [reflexivity|].
  pose proof (is_fresh (dom (heap g) ∪ list_to_set (nodes g))) as Hfresh.
  set_solver.
Qed.

Lemma populate_loop {A} (l : list A) g :
  blank_store g →
  ∃ g', for_each l (λ _, add None None ≫= λ _, mret tt) g = Done tt g'
        ∧ blank_store g'
        ∧ length (nodes g') = (length (nodes g) + length l)%nat
        ∧ valuePool g' = valuePool g.
Proof.
  revert g. induction l as [|x l IH]; intros g Hg.
  { exists g. simpl. rewrite Nat.add_0_r. done. }
  destruct (add_default g) as (n & Hadd & Hn).
  destruct (IH (mkQuadGraph (<[n := ∅]> (heap g)) (nodes g ++ [n]) (valuePool g)))
    as (g' & Hrun & Hg' & Hlen & Hpool).
  { destruct Hg as [Hnd Hblank]. split; simpl.
    - apply NoDup_app. split_and!; [done| |apply NoDup_singleton].
      intros y Hy ->%list_elem_of_singleton. done.
    - intros y [Hy| ->%list_elem_of_singleton]%elem_of_app; unfold deref.
      + rewrite lookup_total_insert_ne by (intros ->; done). by apply Hblank.
      + by rewrite lookup_total_insert_eq. }
  exists g'. split_and!; try done.
  - simpl. unfold mbind at 1, M_bind at 1. unfold mbind at 1, M_bind at 1.
    rewrite Hadd. exact Hrun.
  - rewrite Hlen. simpl. rewrite length_app. simpl. lia.
Qed.

Lemma blank_store_side_at g k s : blank_store g → side_at g k s = None.
Proof.
  intros [_ Hblank]. unfold side_at.
  destruct (nodes_at (nodes g) k) as [l|] eqn:Hk; [|done]. simpl.
  rewrite Hblank; [done|]. unfold nodes_at in Hk. case_decide; [|done].
  by eapply list_elem_of_lookup_2.
Qed.

Lemma populate_new num :
  ∃ g, populate num (constructor ∅ None) = Done tt g
       ∧ blank_store g
       ∧ Z.of_nat (length (nodes g)) = Z.max 0 num
       ∧ valuePool g = ∅.
Proof.
  destruct (populate_loop (seqZ 0 num) (constructor ∅ None)) as (g & Hrun & Hg & Hlen & Hpool).
  { split; [apply NoDup_nil_2|]. intros l Hl. by apply elem_of_nil in Hl. }
  exists g. split_and!; try done.
  rewrite Hlen, length_seqZ. simpl. lia.
Qed.

(** A guarded [link] between two empty slots, as the loops of [grid]
    issue it, and the slots after it. *)
Lemma link_if (c : Prop) `{!Decision c} g a sa b sb :
  NoDup (nodes g) →
  (c → is_Some (nodes_at (nodes g) a) ∧ is_Some (nodes_at (nodes g) b)
       ∧ side_at g a sa = None ∧ side_at g b sb = None) →
  ∃ g', (if decide c then link a sa b sb ≫= λ _, mret tt else mret tt) g = Done tt g'
        ∧ nodes g' = nodes g
        ∧ valuePool g' = valuePool g
        ∧ ∀ k s, side_at g' k s =
                   if decide (c ∧ k = b ∧ s = sb) then Some (mkConnection a sa)
                   else if decide (c ∧ k = a ∧ s = sa) then Some (mkConnection b sb)
                   else side_at g k s.
Proof.
  intros Hnd Hpre. destruct (decide c) as [Hc|Hc].
  - destruct (Hpre Hc) as ([la Ha] & [lb Hb] & Hsa & Hsb).
    eexists. split_and!.
    + unfold mbind at 1, M_bind at 1. by rewrite (link_free g a sa b sb la lb).
    + done.
    + done.
    + intros k s. rewrite (side_at_store_side _ b lb) by done.
      rewrite (side_at_store_side _ a la) by done.
      repeat case_decide; destruct_and?; simplify_eq; tauto.
  - exists g. split_and!; try done.
    intros k s. repeat case_decide; destruct_and?; simplify_eq; tauto.
Qed.

Lemma cell_index_range w h i j :
  0 ≤ i < w → 0 ≤ j < h → 0 ≤ cell_index w i j < w * h.
Proof. unfold cell_index. nia. Qed.

Lemma cell_index_col w i j : 0 ≤ i < w → cell_index w i j mod w = i.
Proof.
  intros. unfold cell_index. rewrite Z_mod_plus_full. apply Z.mod_small. lia.
Qed.

Lemma cell_index_row w i j : 0 ≤ i < w → 0 ≤ j → 0 < j ↔ w ≤ cell_index w i j.
Proof.
  unfold cell_index. intros Hi Hj. split; intros H.
  - assert (1 * w ≤ j * w) by (apply Z.mul_le_mono_nonneg_r; lia). lia.
  - destruct (decide (j = 0)) as [->|]; lia.
Qed.

(** Conditions on indices and on the set of handled cells. *)
Ltac cond := set_unfold; first [lia | tauto | intuition lia].

(** Replace each [if decide P] whose condition [cond] settles by the
    branch taken. *)
Ltac settle_decide :=
  repeat match goal with
         | |- context [@decide ?P ?d] =>
             first [ rewrite (@decide_True _ P d) by cond
                   | rewrite (@decide_False _ P d) by cond ]
         end.

(** One turn of the inner loop of [grid], on a cell not handled yet. *)
Lemma grid_cell_step w h done g i j :
  0 ≤ i < w → 0 ≤ j < h →
  wired w h done g → cell_index w i j ∉ done →
  ∃ g', grid_cell w i j g = Done tt g'
        ∧ wired w h ({[cell_index w i j]} ∪ done) g'.
Proof.
  intros Hi Hj (Hnd & Hlen & Hpool & Hview) Hnew.
  pose proof (cell_index_range w h i j Hi Hj) as Hk.
  pose proof (cell_index_col w i j Hi) as Hcol.
  pose proof (cell_index_row w i j Hi (proj1 Hj)) as Hrow.
  assert (0 < i → 1 ≤ cell_index w i j) as Hleft by (unfold cell_index; nia).
  unfold grid_cell. fold (cell_index w i j).
  generalize dependent (cell_index w i j). intros k Hnew Hk Hcol Hrow Hleft.
  destruct (link_if (0 < i) g k 3 (k - 1) 1) as (g1 & Hrun1 & Hn1 & Hp1 & Hv1); [done| |].
  { intros Hpos. split_and!.
    - apply nodes_at_is_Some. lia.
    - apply nodes_at_is_Some. lia.
    - rewrite Hview by lia. unfold expected. simpl.
      rewrite decide_False; [done|]. by intros [_ ?].
    - rewrite Hview by lia. unfold expected. simpl.
      rewrite Z.sub_add. rewrite decide_False; [done|]. by intros [_ ?]. }
  destruct (link_if (0 < j) g1 k 2 (k - w) 0) as (g2 & Hrun2 & Hn2 & Hp2 & Hv2).
  { by rewrite Hn1. }
  { intros Hpos. rewrite Hn1, !Hv1. split_and!.
    - apply nodes_at_is_Some. lia.
    - apply nodes_at_is_Some. lia.
    - rewrite decide_False by (intros (_ & _ & [=])).
      rewrite decide_False by (intros (_ & _ & [=])).
      rewrite Hview by lia. unfold expected. simpl.
      rewrite decide_False; [done|]. by intros [_ ?].
    - rewrite decide_False by (intros (_ & _ & [=])).
      rewrite decide_False by (intros (_ & _ & [=])).
      rewrite Hview by lia. unfold expected. simpl.
      rewrite Z.sub_add. by rewrite decide_False. }
  exists g2. split.
  { unfold mbind at 1, M_bind at 1. rewrite Hrun1. exact Hrun2. }
  split_and!; [congruence|congruence|congruence|].
  intros k' s' Hk'. rewrite Hv2, !Hv1, Hview by done. clear Hv1 Hv2 Hview Hrun1 Hrun2.
  unfold expected. subst i.
  assert (s' = 0 ∨ s' = 1 ∨ s' = 2 ∨ s' = 3
          ∨ (s' ≠ 0 ∧ s' ≠ 1 ∧ s' ≠ 2 ∧ s' ≠ 3)) as Hs by lia.
  assert (k' = k ∨ k' = k - 1 ∨ k' = k - w
          ∨ (k' ≠ k ∧ k' ≠ k - 1 ∧ k' ≠ k - w)) as Hcase by lia.
  destruct Hs as [->|[->|[->|[->|Hs]]]]; simpl;
    destruct Hcase as [->|[->|[->|Hcase]]]; rewrite ?Z.sub_add;
    settle_decide; try done;
    repeat case_decide;
    first [done | exfalso; cond | (do 2 f_equal; lia) | idtac];
    exfalso; set_unfold; destruct_and?; destruct_or?; try lia;
    first [tauto | assert (w = 1) as -> by lia; rewrite Z.mod_1_r in *; lia].
Qed.

(** The inner loop of [grid]: the cells of column [i] in the rows [js]. *)
Lemma grid_column w h i (js : list Z) done g :
  0 ≤ i < w → NoDup js →
  (∀ j, j ∈ js → 0 ≤ j < h ∧ cell_index w i j ∉ done) →
  wired w h done g →
  ∃ g', for_each js (λ j, grid_cell w i j) g = Done tt g'
        ∧ wired w h (list_to_set (cell_index w i <$> js) ∪ done) g'.
Proof.
  intros Hi. revert done g.
  induction js as [|j js IH]; intros done g Hnd Hjs Hg.
  { exists g. split; [done|]. simpl. by rewrite (left_id_L ∅ (∪)). }
  apply NoDup_cons in Hnd as [Hj Hnd].
  destruct (Hjs j) as [Hrange Hnew]; [left|].
  destruct (grid_cell_step w h done g i j) as (g1 & Hrun1 & Hg1); [done..|].
  destruct (IH ({[cell_index w i j]} ∪ done) g1) as (g' & Hrun & Hg'); [done| |done|].
  { intros j' Hj'. destruct (Hjs j') as [Hrange' Hnew']; [by right|].
    split; [done|]. apply not_elem_of_union. split; [|done].
    intros Heq%elem_of_singleton. unfold cell_index in Heq.
    assert (j' = j) as -> by nia. done. }
  exists g'. split.
  - simpl. unfold mbind at 1, M_bind at 1. by rewrite Hrun1.
  - rewrite fmap_cons, list_to_set_cons.
    by rewrite <- (assoc_L (∪)), (comm_L (∪) {[_]}), <- (assoc_L (∪)),
      (comm_L (∪) done).
Qed.

Lemma elem_of_column_cells w h cols k :
  k ∈ column_cells w h cols ↔
  ∃ i j, i ∈ cols ∧ 0 ≤ j < h ∧ k = cell_index w i j.
Proof.
  unfold column_cells. rewrite list_elem_of_bind. split.
  - intros (i & (j & -> & Hj%elem_of_seqZ)%list_elem_of_fmap & Hi).
    exists i, j. split_and!; [done|lia|lia|done].
  - intros (i & j & Hi & Hj & ->). exists i. split; [|done].
    apply list_elem_of_fmap. exists j. split; [done|]. apply elem_of_seqZ. lia.
Qed.

(** The outer loop of [grid]. *)
Lemma grid_columns w h (cols : list Z) done g :
  NoDup cols →
  (∀ i, i ∈ cols → 0 ≤ i < w) →
  (∀ i j, i ∈ cols → 0 ≤ j < h → cell_index w i j ∉ done) →
  wired w h done g →
  ∃ g', for_each cols (λ i, for_each (seqZ 0 h) (λ j, grid_cell w i j)) g = Done tt g'
        ∧ wired w h (list_to_set (column_cells w h cols) ∪ done) g'.
Proof.
  revert done g.
  induction cols as [|i cols IH]; intros done g Hnd Hcols Hnew Hg.
  { exists g. split; [done|]. simpl. by rewrite (left_id_L ∅ (∪)). }
  apply NoDup_cons in Hnd as [Hi Hnd].
  assert (0 ≤ i < w) as Hrange by (apply Hcols; left).
  destruct (grid_column w h i (seqZ 0 h) done g) as (g1 & Hrun1 & Hg1);
    [done|apply NoDup_seqZ| |done|].
  { intros j Hj%elem_of_seqZ. split; [lia|]. apply Hnew; [left|lia]. }
  destruct (IH (list_to_set (cell_index w i <$> seqZ 0 h) ∪ done) g1)
    as (g' & Hrun & Hg'); [done| | |done|].
  { intros i' Hi'. apply Hcols. by right. }
  { intros i' j Hi' Hj. apply not_elem_of_union. split; [|apply Hnew; [by right|done]].
    rewrite elem_of_list_to_set, list_elem_of_fmap.
    intros (j0 & Heq & Hj0). apply (f_equal (λ k, k mod w)) in Heq.
    rewrite !cell_index_col in Heq by (done || (apply Hcols; by right)).
    by subst i'. }
  exists g'. split.
  - simpl. unfold mbind at 1, M_bind at 1. by rewrite Hrun1.
  - unfold column_cells in *. simpl. rewrite list_to_set_app_L.
    by rewrite <- (assoc_L (∪)), (comm_L (∪) (list_to_set (cell_index w i <$> _))),
      <- (assoc_L (∪)), (comm_L (∪) done).
Qed.

Lemma elem_of_all_cells w h k :
  k ∈ column_cells w h (seqZ 0 w) ↔
  ∃ i j, 0 ≤ i < w ∧ 0 ≤ j < h ∧ k = cell_index w i j.
Proof.
  rewrite elem_of_column_cells. split.
  - intros (i & j & Hi%elem_of_seqZ & Hj & ->). exists i, j. split_and!; [lia..|done].
  - intros (i & j & Hi & Hj & ->). exists i, j. split_and!; [|lia..|done].
    apply elem_of_seqZ. lia.
Qed.

(** C9: for width and height at least 1, [grid(width, height)] returns a
    graph of exactly [width * height] nodes, each array once, with no
    value set.  For the node at column [i] and row [j], of index
    [i + j * width]: side 3 holds the connection to side 1 of the node at
    [index - 1] when [i > 0], and side 1 the reciprocal connection to side
    3 of the node at [index + 1] when there is a column to the right;
    side 2 holds the connection to side 0 of the node at [index - width]
    when [j > 0], and side 0 the reciprocal connection to side 2 of the
    node at [index + width] when there is a row below.  Every other slot
    is empty. *)
Theorem grid_wiring width height :
  1 ≤ width → 1 ≤ height →
  ∃ g, grid width height = Done tt g
    ∧ Z.of_nat (length (nodes g)) = width * height
    ∧ NoDup (nodes g)
    ∧ valuePool g = ∅
    ∧ ∀ i j, 0 ≤ i < width → 0 ≤ j < height →
        let index := i + j * width in
        side_at g index 3 =
          (if decide (0 < i) then Some (mkConnection (index - 1) 1) else None)
        ∧ side_at g index 1 =
          (if decide (i + 1 < width) then Some (mkConnection (index + 1) 3) else None)
        ∧ side_at g index 2 =
          (if decide (0 < j) then Some (mkConnection (index - width) 0) else None)
        ∧ side_at g index 0 =
          (if decide (j + 1 < height) then Some (mkConnection (index + width) 2) else None)
        ∧ ∀ s, ¬ 0 ≤ s < 4 → side_at g index s = None.
Proof.
  intros Hw Hh.
  destruct (populate_new (width * height)) as (g0 & Hrun0 & Hblank & Hlen0 & Hpool0).
  destruct (grid_columns width height (seqZ 0 width) ∅ g0) as (g & Hrun & Hg).
  { apply NoDup_seqZ. }
  { intros i Hi%elem_of_seqZ. lia. }
  { intros. apply not_elem_of_empty. }
  { split_and!; [apply Hblank|nia|done|].
    intros k s _. rewrite blank_store_side_at by done.
    unfold expected. repeat case_decide; try done; destruct_and?;
      match goal with H : _ ∈ ∅ |- _ => by apply not_elem_of_empty in H end. }
  rewrite (right_id_L ∅ (∪)) in Hg. destruct Hg as (Hnd & Hlen & Hpool & Hview).
  exists g. split_and!; try done.
  { unfold grid. unfold mbind at 1, M_bind at 1. by rewrite Hrun0. }
  intros i j Hi Hj index. fold (cell_index width i j) in index.
  pose proof (cell_index_range width height i j Hi Hj) as Hk.
  pose proof (cell_index_col width i j Hi) as Hcol.
  pose proof (cell_index_row width i j Hi (proj1 Hj)) as Hrow.
  assert (index ∈ column_cells width height (seqZ 0 width)) as Hin.
  { apply elem_of_all_cells. by exists i, j. }
  rewrite !Hview by done. unfold expected. simpl.
  split_and!.
  - apply decide_ext. rewrite elem_of_list_to_set. subst index. rewrite Hcol. tauto.
  - apply decide_ext. rewrite elem_of_list_to_set, elem_of_all_cells. split.
    + intros [Hpos _]. destruct (decide (i + 1 < width)) as [|Hlast]; [done|].
      assert (i = width - 1) as -> by lia.
      replace (index + 1) with (cell_index width 0 (j + 1)) in Hpos
        by (subst index; unfold cell_index; lia).
      rewrite cell_index_col in Hpos by lia. lia.
    + intros Hnext.
      assert (index + 1 = cell_index width (i + 1) j) as ->
        by (subst index; unfold cell_index; lia).
      rewrite cell_index_col by lia. split; [lia|].
      exists (i + 1), j. split_and!; (lia || done).
  - apply decide_ext. rewrite elem_of_list_to_set. tauto.
  - apply decide_ext. rewrite elem_of_list_to_set, elem_of_all_cells. split.
    + intros (i' & j' & Hi' & Hj' & Heq).
      pose proof (cell_index_range width height i' j' Hi' Hj') as Hk'.
      rewrite <- Heq in Hk'. subst index. unfold cell_index in Hk'. nia.
    + intros Hbelow. exists i, (j + 1). split_and!; [lia..|].
      subst index. unfold cell_index. lia.
  - intros s Hs. rewrite Hview by done. unfold expected.
    repeat (rewrite decide_False by lia). done.
Qed.

Lemma grid_wiring_witness :
  ∃ g, grid 2 3 = Done tt g
    ∧ Z.of_nat (length (nodes g)) = 2 * 3
    ∧ NoDup (nodes g)
    ∧ valuePool g = ∅
    ∧ ∀ i j, 0 ≤ i < 2 → 0 ≤ j < 3 →
        let index := i + j * 2 in
        side_at g index 3 =
          (if decide (0 < i) then Some (mkConnection (index - 1) 1) else None)
        ∧ side_at g index 1 =
          (if decide (i + 1 < 2) then Some (mkConnection (index + 1) 3) else None)
        ∧ side_at g index 2 =
          (if decide (0 < j) then Some (mkConnection (index - 2) 0) else None)
        ∧ side_at g index 0 =
          (if decide (j + 1 < 3) then Some (mkConnection (index + 2) 2) else None)
        ∧ ∀ s, ¬ 0 ≤ s < 4 → side_at g index s = None.
Proof. apply (grid_wiring 2 3); lia. Defined.

(** * Further properties of the methods *)

(** ** link and unlink on the whole store *)

(** The slots after a [link] between two empty slots. *)
Lemma link_view g a sa b sb :
  NoDup (nodes g) →
  is_Some (nodes_at (nodes g) a) → is_Some (nodes_at (nodes g) b) →
  side_at g a sa = None → side_at g b sb = None →
  ∃ g', link a sa b sb g = Done js_undefined g'
        ∧ nodes g' = nodes g
        ∧ valuePool g' = valuePool g
        ∧ ∀ k s, side_at g' k s =
                   if decide (k = b ∧ s = sb) then Some (mkConnection a sa)
                   else if decide (k = a ∧ s = sa) then Some (mkConnection b sb)
                   else side_at g k s.
Proof.
  intros Hnd [la Ha] [lb Hb] Hsa Hsb.
  eexists. split_and!; [by apply (link_free g a sa b sb la lb)|done|done|].
  intros k s. rewrite (side_at_store_side _ b lb) by done.
  by rewrite (side_at_store_side _ a la) by done.
Qed.

(** The slots after an [unlink] that goes through. *)
Lemma unlink_view g a sa b sb :
  NoDup (nodes g) →
  num <$> side_at g a sa = Some b → num <$> side_at g b sb = Some a →
  ∃ g', unlink a sa b sb g = Done js_undefined g'
        ∧ nodes g' = nodes g
        ∧ valuePool g' = valuePool g
        ∧ ∀ k s, side_at g' k s =
                   if decide (k = b ∧ s = sb) then None
                   else if decide (k = a ∧ s = sa) then None
                   else side_at g k s.
Proof.
  intros Hnd Hsa Hsb.
  destruct (side_at g a sa) as [ca|] eqn:Hca; [|done].
  destruct (side_at g b sb) as [cb|] eqn:Hcb; [|done].
  destruct (side_at_Some_node _ _ _ _ Hca) as [la Ha].
  destruct (side_at_Some_node _ _ _ _ Hcb) as [lb Hb].
  eexists. split_and!.
  - rewrite (unlink_run g a sa b sb la lb) by done.
    rewrite Hca, Hcb. by rewrite decide_True.
  - done.
  - done.
  - intros k s. rewrite (side_at_store_side _ b lb) by done.
    by rewrite (side_at_store_side _ a la) by done.
Qed.



(** The two ways [link] can return. *)
Lemma link_outcome g a sa b sb v g' :
  link a sa b sb g = Done v g' →
  (v = js_false ∧ g' = g)
  ∨ (v = js_undefined
     ∧ is_Some (nodes_at (nodes g) a) ∧ is_Some (nodes_at (nodes g) b)
     ∧ side_at g a sa = None ∧ side_at g b sb = None).
Proof.
  intros Hrun.
  destruct (nodes_at (nodes g) a) as [la|] eqn:Ha.
  2:{ run. by rewrite Ha in Hrun. }
  destruct (side_at g a sa) as [ca|] eqn:Hsa.
  { left. unfold side_at in Hsa. rewrite Ha in Hsa. simpl in Hsa.
    run. rewrite Ha in Hrun. simpl in Hrun. rewrite Hsa in Hrun.
    by injection Hrun as <- <-. }
  destruct (nodes_at (nodes g) b) as [lb|] eqn:Hb.
  2:{ unfold side_at in Hsa. rewrite Ha in Hsa. simpl in Hsa.
      run. rewrite Ha in Hrun. simpl in Hrun. rewrite Hsa, Hb in Hrun. done. }
  rewrite (link_run g a sa b sb la lb) in Hrun by done.
  case_decide as Hfree.
  - right. destruct Hfree. injection Hrun as <- _. eauto 10.
  - left. by injection Hrun as <- <-.
Qed.

(** [link] keeps the symmetry of the store, whatever it returns. *)
Lemma link_symmetric_aux g a sa b sb v g' :
  NoDup (nodes g) → symmetric g →
  link a sa b sb g = Done v g' → symmetric g'.
Proof.
  intros Hnd Hsym Hrun.
  destruct (link_outcome _ _ _ _ _ _ _ Hrun) as [[_ ->]|(_ & Ha & Hb & Hsa & Hsb)];
    [done|].
  destruct (link_view g a sa b sb) as (g1 & Hrun1 & _ & _ & Hv); [done..|].
  assert (g' = g1) as -> by congruence.
  intros k s c. rewrite !Hv.
  destruct (decide (k = b ∧ s = sb)) as [[-> ->]|Hkb].
  { intros [= <-]. simpl.
    destruct (decide (a = b ∧ sa = sb)) as [[-> ->]|]; [done|].
    by rewrite decide_True. }
  destruct (decide (k = a ∧ s = sa)) as [[-> ->]|Hka].
  { intros [= <-]. simpl. by rewrite decide_True. }
  intros Hc. pose proof (Hsym _ _ _ Hc) as Hback.
  rewrite decide_False by (intros [Hn Hs]; rewrite Hn, Hs in Hback; congruence).
  by rewrite decide_False by (intros [Hn Hs]; rewrite Hn, Hs in Hback; congruence).
Qed.

(** [link] writes the sides it was given. *)
Lemma link_sides_aux g a sa b sb v g' :
  NoDup (nodes g) → sides_in_range g → 0 ≤ sa < 4 → 0 ≤ sb < 4 →
  link a sa b sb g = Done v g' → sides_in_range g'.
Proof.
  intros Hnd Hin Hra Hrb Hrun.
  destruct (link_outcome _ _ _ _ _ _ _ Hrun) as [[_ ->]|(_ & Ha & Hb & Hsa & Hsb)];
    [done|].
  destruct (link_view g a sa b sb) as (g1 & Hrun1 & _ & _ & Hv); [done..|].
  assert (g' = g1) as -> by congruence.
  intros k s c. rewrite Hv.
  repeat case_decide; [by intros [= <-]..|apply Hin].
Qed.

Lemma blank_store_symmetric g : blank_store g → symmetric g ∧ sides_in_range g.
Proof.
  intros Hg. split; intros k s c; by rewrite blank_store_side_at.
Qed.

Lemma two_nodes_blank : blank_store two_nodes.
Proof.
  split; [compute_done|]. intros l Hl. simpl in Hl.
  apply elem_of_cons in Hl as [->|Hl]; [done|].
  apply elem_of_cons in Hl as [->|Hl]; [done|].
  by apply elem_of_nil in Hl.
Qed.

Lemma once_linked_run : link 0 0 1 2 two_nodes = Done js_undefined once_linked.
Proof. vm_compute. reflexivity. Qed.

Lemma once_linked_symmetric : symmetric once_linked ∧ sides_in_range once_linked.
Proof.
  destruct (blank_store_symmetric _ two_nodes_blank) as [Hsym Hin]. split.
  - eapply link_symmetric_aux; [|done|apply once_linked_run]. compute_done.
  - eapply (link_sides_aux two_nodes 0 0 1 2); [|done|lia|lia|apply once_linked_run].
    compute_done.
Qed.

(** [link] changes neither the node store nor the value pool. *)
Lemma link_keeps_store g a sa b sb v g' :
  link a sa b sb g = Done v g' →
  nodes g' = nodes g ∧ valuePool g' = valuePool g.
Proof.
  intros Hrun.
  destruct (link_outcome _ _ _ _ _ _ _ Hrun)
    as [[_ ->]|(_ & [la Ha] & [lb Hb] & Hsa & Hsb)]; [done|].
  rewrite (link_free g a sa b sb la lb) in Hrun by done.
  injection Hrun as _ <-. done.
Qed.

(** X2: on a store that holds each array once, [link] keeps the store
    symmetric whatever it returns: if every connection is answered by the
    connection that leads back before the call, so it is after it.  The
    node store and the value pool are unchanged.  Called with sides in
    0..3 it also keeps every stored side in 0..3. *)
Theorem link_preserves_symmetry g a sa b sb v g' :
  NoDup (nodes g) → symmetric g →
  link a sa b sb g = Done v g' →
  nodes g' = nodes g ∧ valuePool g' = valuePool g
  ∧ NoDup (nodes g') ∧ symmetric g'
  ∧ (sides_in_range g → 0 ≤ sa < 4 → 0 ≤ sb < 4 → sides_in_range g').
Proof.
  intros Hnd Hsym Hrun.
  destruct (link_keeps_store _ _ _ _ _ _ _ Hrun) as [Hn Hp].
  split_and!; [done|done| | |].
  - by rewrite Hn.
  - exact (link_symmetric_aux g a sa b sb v g' Hnd Hsym Hrun).
  - intros Hin Hra Hrb.
    exact (link_sides_aux g a sa b sb v g' Hnd Hin Hra Hrb Hrun).
Qed.

Lemma link_preserves_symmetry_witness :
  nodes once_linked = nodes two_nodes ∧ valuePool once_linked = valuePool two_nodes
  ∧ NoDup (nodes once_linked) ∧ symmetric once_linked
  ∧ (sides_in_range two_nodes → 0 ≤ 0 < 4 → 0 ≤ 2 < 4 → sides_in_range once_linked).
Proof.
  apply (link_preserves_symmetry two_nodes 0 0 1 2 js_undefined).
  - compute_done.
  - apply blank_store_symmetric, two_nodes_blank.
  - vm_compute. reflexivity.
Defined.

(** X3: on a symmetric store that holds each array once, [unlink] called
    with the two ends of an existing link goes through: it empties the two
    slots, leaves every other slot, the store and the values as they were,
    and the store is still symmetric. *)
Theorem unlink_existing g a sa b sb :
  NoDup (nodes g) → symmetric g →
  side_at g a sa = Some (mkConnection b sb) →
  ∃ g', unlink a sa b sb g = Done js_undefined g'
        ∧ side_at g' a sa = None ∧ side_at g' b sb = None
        ∧ (∀ k s, (k, s) ≠ (a, sa) → (k, s) ≠ (b, sb) →
                  side_at g' k s = side_at g k s)
        ∧ nodes g' = nodes g ∧ valuePool g' = valuePool g
        ∧ symmetric g'.
Proof.
  intros Hnd Hsym Hsa. pose proof (Hsym _ _ _ Hsa) as Hsb. simpl in Hsb.
  destruct (unlink_view g a sa b sb) as (g' & Hrun & Hn & Hp & Hv);
    [done|by rewrite Hsa|by rewrite Hsb|].
  exists g'. split_and!; try done.
  - rewrite Hv. case_decide; [done|]. by rewrite decide_True.
  - rewrite Hv. by rewrite decide_True.
  - intros k s Hka Hkb. rewrite Hv.
    rewrite decide_False by (intros [-> ->]; done).
    by rewrite decide_False by (intros [-> ->]; done).
  - intros k s c. rewrite !Hv.
    destruct (decide (k = b ∧ s = sb)); [done|].
    destruct (decide (k = a ∧ s = sa)); [done|].
    intros Hc. pose proof (Hsym _ _ _ Hc) as Hback.
    assert (∀ k1 s1 k2 s2,
              side_at g k1 s1 = Some (mkConnection k2 s2) →
              side_at g k s = Some c → num c = k1 → side c = s1 →
              k = k2 ∧ s = s2) as Huniq.
    { intros k1 s1 k2 s2 H1 _ <- <-. rewrite Hback in H1.
      by injection H1 as <- <-. }
    rewrite decide_False by (intros [Hn' Hs']; eapply Huniq in Hsb; eauto).
    by rewrite decide_False by (intros [Hn' Hs']; eapply Huniq in Hsa; eauto).
Qed.

Lemma unlink_existing_witness :
  ∃ g', unlink 0 0 1 2 once_linked = Done js_undefined g'
        ∧ side_at g' 0 0 = None ∧ side_at g' 1 2 = None
        ∧ (∀ k s, (k, s) ≠ (0, 0) → (k, s) ≠ (1, 2) →
                  side_at g' k s = side_at once_linked k s)
        ∧ nodes g' = nodes once_linked ∧ valuePool g' = valuePool once_linked
        ∧ symmetric g'.
Proof.
  apply unlink_existing.
  - compute_done.
  - apply once_linked_symmetric.
  - reflexivity.
Defined.

(** X4: on a store that holds each array once, a [link] between two
    empty slots followed by [unlink] with the same arguments, or with the
    two ends exchanged, gives back the store, the values and every slot
    of the graph before the [link]. *)
Theorem link_unlink_round_trip g a sa b sb :
  NoDup (nodes g) →
  is_Some (nodes_at (nodes g) a) → is_Some (nodes_at (nodes g) b) →
  side_at g a sa = None → side_at g b sb = None →
  ∃ g1, link a sa b sb g = Done js_undefined g1
    ∧ (∃ g2, unlink a sa b sb g1 = Done js_undefined g2
             ∧ nodes g2 = nodes g ∧ valuePool g2 = valuePool g
             ∧ ∀ k s, side_at g2 k s = side_at g k s)
    ∧ (∃ g2, unlink b sb a sa g1 = Done js_undefined g2
             ∧ nodes g2 = nodes g ∧ valuePool g2 = valuePool g
             ∧ ∀ k s, side_at g2 k s = side_at g k s).
Proof.
  intros Hnd Ha Hb Hsa Hsb.
  destruct (link_view g a sa b sb) as (g1 & Hrun1 & Hn1 & Hp1 & Hv1); [done..|].
  assert (side_at g1 a sa = Some (mkConnection b sb)) as H1.
  { rewrite Hv1. destruct (decide (a = b ∧ sa = sb)) as [[-> ->]|]; [done|].
    by rewrite decide_True. }
  assert (side_at g1 b sb = Some (mkConnection a sa)) as H2.
  { rewrite Hv1. by rewrite decide_True. }
  exists g1. split_and!; [done| |].
  - destruct (unlink_view g1 a sa b sb) as (g2 & Hrun2 & Hn2 & Hp2 & Hv2);
      [by rewrite Hn1|by rewrite H1|by rewrite H2|].
    exists g2. split_and!; [done|congruence|congruence|].
    intros k s. rewrite Hv2, Hv1.
    repeat case_decide; destruct_and?; simplify_eq; done.
  - destruct (unlink_view g1 b sb a sa) as (g2 & Hrun2 & Hn2 & Hp2 & Hv2);
      [by rewrite Hn1|by rewrite H2|by rewrite H1|].
    exists g2. split_and!; [done|congruence|congruence|].
    intros k s. rewrite Hv2, Hv1.
    repeat case_decide; destruct_and?; simplify_eq; done.
Qed.

Lemma link_unlink_round_trip_witness :
  ∃ g1, link 0 1 1 3 once_linked = Done js_undefined g1
    ∧ (∃ g2, unlink 0 1 1 3 g1 = Done js_undefined g2
             ∧ nodes g2 = nodes once_linked ∧ valuePool g2 = valuePool once_linked
             ∧ ∀ k s, side_at g2 k s = side_at once_linked k s)
    ∧ (∃ g2, unlink 1 3 0 1 g1 = Done js_undefined g2
             ∧ nodes g2 = nodes once_linked ∧ valuePool g2 = valuePool once_linked
             ∧ ∀ k s, side_at g2 k s = side_at once_linked k s).
Proof.
  apply link_unlink_round_trip.
  - compute_done.
  - vm_compute. eauto.
  - vm_compute. eauto.
  - reflexivity.
  - reflexivity.
Defined.

(** ** Indices off the store in link and unlink *)

(** X5: [link] raises a [TypeError] when its first index is off the
    store, and when the first slot is empty and the second index is off
    the store.  When the first slot is occupied the second index is never
    looked at: the call returns [false] and changes nothing, even for a
    second index off the store. *)
Theorem link_off_store g a sa b sb :
  (nodes_at (nodes g) a = None → link a sa b sb g = TypeError)
  ∧ (is_Some (nodes_at (nodes g) a) → side_at g a sa = None →
     nodes_at (nodes g) b = None → link a sa b sb g = TypeError)
  ∧ (is_Some (side_at g a sa) → link a sa b sb g = Done js_false g).
Proof.
  split_and!.
  - intros Ha. run. by rewrite Ha.
  - intros [la Ha]. unfold side_at. rewrite Ha. simpl. intros Hsa Hb.
    run. rewrite Ha. simpl. by rewrite Hsa, Hb.
  - unfold side_at. intros [c Hc].
    destruct (nodes_at (nodes g) a) as [la|] eqn:Ha; [|done]. simpl in Hc.
    run. rewrite Ha. simpl. by rewrite Hc.
Qed.

Lemma link_off_store_witness :
  link 5 0 1 2 once_linked = TypeError
  ∧ link 0 1 5 2 once_linked = TypeError
  ∧ link 0 0 5 2 once_linked = Done js_false once_linked.
Proof.
  destruct (link_off_store once_linked 5 0 1 2) as (H1 & _ & _).
  destruct (link_off_store once_linked 0 1 5 2) as (_ & H2 & _).
  destruct (link_off_store once_linked 0 0 5 2) as (_ & _ & H3).
  split_and!.
  - apply H1. reflexivity.
  - apply H2; [vm_compute; eauto|reflexivity|reflexivity].
  - apply H3. vm_compute. eauto.
Defined.

(** X6: [unlink] raises a [TypeError] when its first index is off the
    store.  When the first slot is empty or names another node than the
    second index, the call returns [false] and changes nothing, without
    looking at the second index.  When the first slot names the second
    index and that index is off the store, the call raises a
    [TypeError]. *)
Theorem unlink_off_store g a sa b sb :
  (nodes_at (nodes g) a = None → unlink a sa b sb g = TypeError)
  ∧ (is_Some (nodes_at (nodes g) a) → num <$> side_at g a sa ≠ Some b →
     unlink a sa b sb g = Done js_false g)
  ∧ (num <$> side_at g a sa = Some b → nodes_at (nodes g) b = None →
     unlink a sa b sb g = TypeError).
Proof.
  split_and!.
  - intros Ha. run. by rewrite Ha.
  - intros [la Ha]. unfold side_at. rewrite Ha. simpl. intros Hsa.
    run. rewrite Ha. simpl. by rewrite decide_True.
  - unfold side_at. intros Hsa Hb.
    destruct (nodes_at (nodes g) a) as [la|] eqn:Ha; [|done]. simpl in Hsa.
    run. rewrite Ha. simpl. rewrite decide_False by (by intros ?).
    by rewrite Hb.
Qed.

Lemma unlink_off_store_witness :
  unlink 5 0 1 2 once_linked = TypeError
  ∧ unlink 0 1 5 2 once_linked = Done js_false once_linked
  ∧ unlink 0 0 5 2
      (store_side two_nodes 1%positive 0 (Some (mkConnection 5 2))) = TypeError.
Proof.
  destruct (unlink_off_store once_linked 5 0 1 2) as (H1 & _ & _).
  destruct (unlink_off_store once_linked 0 1 5 2) as (_ & H2 & _).
  destruct (unlink_off_store
              (store_side two_nodes 1%positive 0 (Some (mkConnection 5 2))) 0 0 5 2)
    as (_ & _ & H3).
  split_and!.
  - apply H1. reflexivity.
  - apply H2; [vm_compute; eauto|]. vm_compute. intros [=].
  - apply H3; reflexivity.
Defined.

(** ** add, populate and the length *)

(** The arrays [populate] appends. *)
Lemma populate_loop_gen {A} (l : list A) g :
  ∃ g' news,
    for_each l (λ _, add None None ≫= λ _, mret tt) g = Done tt g'
    ∧ nodes g' = nodes g ++ news
    ∧ length news = length l
    ∧ NoDup news
    ∧ (∀ x, x ∈ news → (x ∉ nodes g) ∧ deref (heap g') x = ∅)
    ∧ (∀ x, x ∈ nodes g → deref (heap g') x = deref (heap g) x)
    ∧ valuePool g' = valuePool g.
Proof.
  revert g. induction l as [|y l IH]; intros g.
  { exists g, []. split_and!; try done.
    - by rewrite app_nil_r.
    - apply NoDup_nil_2.
    - intros x Hx. by apply elem_of_nil in Hx. }
  destruct (add_default g) as (n & Hadd & Hn).
  destruct (IH (mkQuadGraph (<[n := ∅]> (heap g)) (nodes g ++ [n]) (valuePool g)))
    as (g' & news & Hrun & Hnodes & Hlen & Hnd & Hnew & Hold & Hpool).
  simpl in *.
  assert (deref (heap g') n = ∅) as Hn'.
  { rewrite Hold by (apply elem_of_app; right; by left).
    unfold deref. by rewrite lookup_total_insert_eq. }
  exists g', (n :: news). split_and!.
  - unfold mbind at 1, M_bind at 1. unfold mbind at 1, M_bind at 1.
    rewrite Hadd. exact Hrun.
  - by rewrite Hnodes, <- (assoc_L (++)).
  - simpl. by rewrite Hlen.
  - apply NoDup_cons. split; [|done].
    intros Hin. destruct (Hnew n Hin) as [Hnot _].
    apply Hnot, elem_of_app. right. by left.
  - intros x [->|Hx]%elem_of_cons; [done|].
    destruct (Hnew x Hx) as [Hnot Hx']. split; [|done].
    intros Hin. apply Hnot, elem_of_app. by left.
  - intros x Hx. rewrite Hold by (apply elem_of_app; by left).
    unfold deref. rewrite lookup_total_insert_ne; [done|]. by intros ->.
  - done.
Qed.

Lemma nodes_at_app_l ns ms k :
  k < Z.of_nat (length ns) → nodes_at (ns ++ ms) k = nodes_at ns k.
Proof.
  intros Hk. unfold nodes_at. case_decide; [|done].
  apply lookup_app_l. lia.
Qed.

Lemma nodes_at_app_r ns ms k :
  Z.of_nat (length ns) ≤ k →
  nodes_at (ns ++ ms) k = nodes_at ms (k - Z.of_nat (length ns)).
Proof.
  intros Hk. unfold nodes_at. rewrite !decide_True by lia.
  rewrite lookup_app_r by lia. f_equal. lia.
Qed.

Lemma nodes_at_elem_of ns k l : nodes_at ns k = Some l → l ∈ ns.
Proof.
  unfold nodes_at. case_decide; [|done]. apply list_elem_of_lookup_2.
Qed.

Lemma nodes_at_None ns k :
  k < 0 ∨ Z.of_nat (length ns) ≤ k → nodes_at ns k = None.
Proof.
  intros Hk. unfold nodes_at. case_decide; [|done].
  apply lookup_ge_None. lia.
Qed.

(** X7: [populate(num)] always returns.  It appends [num] new arrays
    (none when [num] is not positive), distinct from one another and from
    those of the store; the length grows by that number; all slots of the
    new nodes are empty, and every slot and value of the graph is as
    before. *)
Theorem populate_spec g num :
  ∃ g' news,
    populate num g = Done tt g'
    ∧ nodes g' = nodes g ++ news
    ∧ NoDup news ∧ (∀ x, x ∈ news → x ∉ nodes g)
    ∧ length_ g' = Done (Z.of_nat (length (nodes g)) + Z.max 0 num) g'
    ∧ valuePool g' = valuePool g
    ∧ (∀ k s, side_at g' k s = side_at g k s)
    ∧ (∀ k, Z.of_nat (length (nodes g)) ≤ k
            < Z.of_nat (length (nodes g)) + Z.max 0 num →
            is_Some (nodes_at (nodes g') k)).
Proof.
  destruct (populate_loop_gen (seqZ 0 num) g)
    as (g' & news & Hrun & Hnodes & Hlen & Hnd & Hnew & Hold & Hpool).
  rewrite length_seqZ in Hlen.
  exists g', news. split_and!; try done.
  - intros x Hx. by destruct (Hnew x Hx).
  - unfold length_. f_equal. rewrite Hnodes, length_app. lia.
  - intros k s. unfold side_at. rewrite Hnodes.
    destruct (decide (k < Z.of_nat (length (nodes g)))) as [Hk|Hk].
    + rewrite nodes_at_app_l by done.
      destruct (nodes_at (nodes g) k) as [l|] eqn:Hl; [|done]. simpl.
      by rewrite Hold by (by eapply nodes_at_elem_of).
    + rewrite nodes_at_app_r by lia.
      rewrite (nodes_at_None (nodes g)) by lia. simpl.
      destruct (nodes_at news _) as [l|] eqn:Hl; [|done]. simpl.
      destruct (Hnew l) as [_ ->]; [by eapply nodes_at_elem_of|done].
  - intros k Hk. rewrite Hnodes, nodes_at_app_r by lia.
    apply nodes_at_is_Some. lia.
Qed.

(** X8: [add()] without a node always returns.  The array it returns is
    new, it is the node at the index that was the length of the store,
    the length has grown by one, and every slot and value of the graph is
    as before, the slots of the new node being empty. *)
Theorem add_default_spec g :
  ∃ n g',
    add None None g = Done n g'
    ∧ (n ∉ nodes g)
    ∧ nodes g' = nodes g ++ [n]
    ∧ nodes_at (nodes g') (Z.of_nat (length (nodes g))) = Some n
    ∧ length_ g' = Done (Z.of_nat (length (nodes g)) + 1) g'
    ∧ valuePool g' = valuePool g
    ∧ (∀ k s, side_at g' k s = side_at g k s)
    ∧ (NoDup (nodes g) → NoDup (nodes g')).
Proof.
  destruct (add_default g) as (n & Hadd & Hn).
  eexists n, _. split; [exact Hadd|]. simpl. split_and!; try done.
  - rewrite nodes_at_app_r by lia. by rewrite Z.sub_diag.
  - unfold length_. simpl. f_equal. rewrite length_app. simpl. lia.
  - intros k s. unfold side_at. simpl.
    destruct (decide (k < Z.of_nat (length (nodes g)))) as [Hk|Hk].
    + rewrite nodes_at_app_l by done.
      destruct (nodes_at (nodes g) k) as [l|] eqn:Hl; [|done]. simpl.
      unfold deref. rewrite lookup_total_insert_ne; [done|].
      intros ->. by apply nodes_at_elem_of in Hl.
    + rewrite nodes_at_app_r by lia.
      rewrite (nodes_at_None (nodes g)) by lia. simpl.
      destruct (nodes_at [n] _) as [l|] eqn:Hl; [|done]. simpl.
      apply nodes_at_elem_of, list_elem_of_singleton in Hl as ->.
      unfold deref. by rewrite lookup_total_insert_eq.
  - intros Hnd. apply NoDup_app. split_and!; [done| |apply NoDup_singleton].
    by intros x Hx ->%list_elem_of_singleton.
Qed.

(** X9: [add(node, value)] with a node and a value stores the array it
    was given, not a copy, and returns it.  The cursor built at the new
    index reads the value, and has the slots of the array.  When the
    array is already the node at an index [k], the cursor built at [k]
    reads the new value too, and the store now holds the array twice. *)
Theorem add_node_value g l v t :
  ∃ g',
    add (Some l) (Some v) g = Done l g'
    ∧ nodes g' = nodes g ++ [l]
    ∧ heap g' = heap g
    ∧ (res ← build (Z.of_nat (length (nodes g))) t; value res) g' = Done (Some v) g'
    ∧ (∀ s, side_at g' (Z.of_nat (length (nodes g))) s = deref (heap g) l !! s)
    ∧ (∀ k, nodes_at (nodes g) k = Some l →
            (res ← build k t; value res) g' = Done (Some v) g'
            ∧ (∀ s, side_at g' k s = side_at g' (Z.of_nat (length (nodes g))) s)
            ∧ ¬ NoDup (nodes g')).
Proof.
  eexists. split; [reflexivity|]. simpl.
  assert (nodes_at (nodes g ++ [l]) (Z.of_nat (length (nodes g))) = Some l) as Hnew.
  { rewrite nodes_at_app_r by lia. by rewrite Z.sub_diag. }
  split_and!; try done.
  - run. rewrite Hnew. by rewrite lookup_insert_eq.
  - intros s. unfold side_at. simpl. by rewrite Hnew.
  - intros k Hk. pose proof (nodes_at_length _ _ _ Hk) as Hrange.
    assert (nodes_at (nodes g ++ [l]) k = Some l) as Hold
      by (by rewrite nodes_at_app_l by lia).
    split_and!.
    + run. rewrite Hold. by rewrite lookup_insert_eq.
    + intros s. unfold side_at. simpl. by rewrite Hold, Hnew.
    + intros Hnd. assert (k = Z.of_nat (length (nodes g))) by eauto using nodes_at_inj.
      lia.
Qed.

(** ** Values *)

(** X10: [setValue(i, v)] touches only the value pool, and afterwards the
    cursor built at an index [k] reads [v] when [k] and [i] hold the same
    node, in particular when [k = i], and reads what it read before when
    they hold different nodes.  Two indices off the store hold the same
    node, [undefined]. *)
Theorem setValue_value g i v k t :
  ∃ g',
    setValue i v g = Done tt g'
    ∧ heap g' = heap g ∧ nodes g' = nodes g
    ∧ (res ← build i t; value res) g' = Done (Some v) g'
    ∧ returned ((res ← build k t; value res) g') =
        (if decide (nodes_at (nodes g) k = nodes_at (nodes g) i)
         then Some (Some v)
         else returned ((res ← build k t; value res) g)).
Proof.
  eexists. split; [reflexivity|]. simpl. split_and!; try done.
  - run. by rewrite lookup_insert_eq.
  - run. rewrite lookup_insert. by repeat case_decide.
Qed.

(** X11: a value stored through a cursor is read by every cursor bound
    to the same node, whatever the turns and however the cursors were
    obtained, by [setValue]'s readers included; cursors bound to other
    nodes read what they read before, and the links are untouched. *)
Theorem cursor_value_shared g res res' v :
  ∃ g',
    set_value res v g = Done tt g'
    ∧ heap g' = heap g ∧ nodes g' = nodes g
    ∧ value res g' = Done (Some v) g'
    ∧ (node res' = node res → value res' g' = Done (Some v) g')
    ∧ (node res' ≠ node res → returned (value res' g') = returned (value res' g))
    ∧ (∀ i t, nodes_at (nodes g) i = node res →
              (c ← build i t; value c) g' = Done (Some v) g').
Proof.
  eexists. split; [reflexivity|]. unfold value, pool_get. simpl.
  split_and!; try done.
  - by rewrite lookup_insert_eq.
  - intros ->. by rewrite lookup_insert_eq.
  - intros Hne. by rewrite lookup_insert_ne.
  - intros i t Hi. run. by rewrite Hi, lookup_insert_eq.
Qed.

(** ** Cursors *)

(** What [next] returns on a cursor bound to a node, with no condition
    on the numbers. *)
Lemma next_bound g l idx t d :
  ∃ r, next (mkCursor idx (Some l) t) d g = Done r g
       ∧ match r with
         | None => True
         | Some res' =>
             ∃ c n, deref (heap g) l !! Z.rem (d + t) 4 = Some c
                    ∧ nodes_at (nodes g) (num c) = Some n
                    ∧ res' = mkCursor (num c) (Some n) (Z.rem (side c + 2 - d + 4) 4)
         end.
Proof.
  run. destruct (deref (heap g) l !! Z.rem (d + t) 4) as [c|] eqn:Hc.
  - destruct (nodes_at (nodes g) (num c)) as [n|] eqn:Hn.
    + eexists. split; [done|]. exists c, n. by rewrite Hn.
    + by exists None.
  - by exists None.
Qed.

(** X12: a cursor returned by [next] is the cursor [build] returns for
    its index and turn, and is bound to a node; when the stored sides and
    the direction are in 0..3, its turn is in 0..3 too, whatever the turn
    of the cursor it came from. *)
Theorem next_keeps_cursor g idx l t d res' :
  nodes_at (nodes g) idx = Some l →
  returned (next (mkCursor idx (Some l) t) d g) = Some (Some res') →
  is_Some (node res')
  ∧ build (index res') (turn res') g = Done res' g
  ∧ (sides_in_range g → 0 ≤ d < 4 → 0 ≤ turn res' < 4).
Proof.
  intros Hl Hret.
  destruct (next_bound g l idx t d) as (r & Hrun & Hr).
  rewrite Hrun in Hret. simpl in Hret. injection Hret as ->.
  destruct Hr as (c & n & Hc & Hn & ->). simpl. split_and!; [eauto| |].
  - run. by rewrite Hn.
  - intros Hin Hd.
    assert (0 ≤ side c < 4) as Hside.
    { apply (Hin idx (Z.rem (d + t) 4)). unfold side_at. by rewrite Hl. }
    rewrite rem_mod_4 by lia. apply Z.mod_pos_bound. lia.
Qed.

Lemma next_keeps_cursor_witness :
  is_Some (node (mkCursor 1 (Some 2%positive) 2))
  ∧ build (index (mkCursor 1 (Some 2%positive) 2))
          (turn (mkCursor 1 (Some 2%positive) 2)) once_linked
    = Done (mkCursor 1 (Some 2%positive) 2) once_linked
  ∧ (sides_in_range once_linked → 0 ≤ 2 < 4 →
     0 ≤ turn (mkCursor 1 (Some 2%positive) 2) < 4).
Proof.
  apply (next_keeps_cursor once_linked 0 1%positive 2 2); reflexivity.
Defined.

(** X13: a walk of [next] calls from a cursor bound to a node never
    raises a [TypeError] and never changes the graph, whatever the graph
    and the directions: it ends on a cursor bound to a node or on
    [null]. *)
Theorem walk_never_throws g idx l t ds :
  ∃ r, walk (mkCursor idx (Some l) t) ds g = Done r g
       ∧ match r with Some res' => is_Some (node res') | None => True end.
Proof.
  revert idx l t. induction ds as [|d ds IH]; intros idx l t.
  { eexists. split; [reflexivity|]. simpl. eauto. }
  destruct (next_bound g l idx t d) as (r & Hrun & Hr).
  destruct r as [res'|].
  - destruct Hr as (c & n & _ & _ & ->).
    destruct (IH (num c) n (Z.rem (side c + 2 - d + 4) 4)) as (r & Hwalk & Hnode).
    exists r. split; [|done].
    simpl. unfold mbind at 1, M_bind at 1. by rewrite Hrun.
  - exists None. split; [|done].
    simpl. unfold mbind at 1, M_bind at 1. by rewrite Hrun.
Qed.

(** X14: relative directions keep their meaning across a link.  After a
    step in direction [d] that arrives through side [side c] of the
    target, direction [d'] of the new cursor reads side
    [side c + 2 + (d' - d)] modulo 4: going on in direction [d] leaves
    through the side opposite to the one entered, and the reverse
    direction reads the side entered. *)
Theorem next_orientation g idx l t d c res' :
  nodes_at (nodes g) idx = Some l →
  0 ≤ t < 4 → 0 ≤ d < 4 →
  side_at g idx ((d + t) mod 4) = Some c → 0 ≤ side c < 4 →
  next (mkCursor idx (Some l) t) d g = Done (Some res') g →
  (∀ d', (d' + turn res') mod 4 = (side c + 2 + (d' - d)) mod 4)
  ∧ (d + turn res') mod 4 = (side c + 2) mod 4
  ∧ (reverse d + turn res') mod 4 = side c.
Proof.
  intros Hl Ht Hd Hc Hside Hrun.
  rewrite (next_run g idx l t d) in Hrun
    by (try done; rewrite Hc; by intros ? [= <-]).
  rewrite Hc in Hrun. destruct (nodes_at (nodes g) (num c)); [|done].
  injection Hrun as <-. simpl.
  assert (∀ d', (d' + (side c + 2 - d + 4) mod 4) mod 4
                = (side c + 2 + (d' - d)) mod 4) as Hall.
  { intros d'. rewrite Z.add_mod_idemp_r by lia.
    replace (d' + (side c + 2 - d + 4)) with (side c + 2 + (d' - d) + 1 * 4) by lia.
    by rewrite Z.mod_add by lia. }
  split_and!; [done| |].
  - rewrite Hall. f_equal. lia.
  - unfold reverse. side_cases d; side_cases (side c); reflexivity.
Qed.

Lemma next_orientation_witness :
  (∀ d', (d' + turn (mkCursor 1 (Some 2%positive) 2)) mod 4
         = (side (mkConnection 1 2) + 2 + (d' - 2)) mod 4)
  ∧ (2 + turn (mkCursor 1 (Some 2%positive) 2)) mod 4
    = (side (mkConnection 1 2) + 2) mod 4
  ∧ (reverse 2 + turn (mkCursor 1 (Some 2%positive) 2)) mod 4
    = side (mkConnection 1 2).
Proof.
  apply (next_orientation once_linked 0 1%positive 2 2);
    first [reflexivity | simpl; lia].
Defined.

(** X15: a node can be linked to itself on a single side.  On an empty
    slot [link(a, s, a, s)] goes through and stores in the slot the
    connection to itself; a cursor at [a] that steps through this side
    comes back to [a] turned by two sides. *)
Theorem link_self_loop g a la s t d :
  nodes_at (nodes g) a = Some la →
  side_at g a s = None →
  0 ≤ t < 4 → 0 ≤ d < 4 → (d + t) mod 4 = s →
  ∃ g', link a s a s g = Done js_undefined g'
        ∧ side_at g' a s = Some (mkConnection a s)
        ∧ next (mkCursor a (Some la) t) d g'
          = Done (Some (mkCursor a (Some la) ((t + 2) mod 4))) g'.
Proof.
  intros Ha Hs Ht Hd Hmod.
  assert (0 ≤ s < 4) as Hrs by (subst s; apply Z.mod_pos_bound; lia).
  eexists. split; [by apply (link_free g a s a s la la)|].
  assert (∀ g0, nodes g0 = nodes g →
                side_at (store_side g0 la s (Some (mkConnection a s))) a s
                = Some (mkConnection a s)) as Hloop.
  { intros g0 Hg0. unfold side_at, store_side, deref. simpl.
    rewrite Hg0, Ha. simpl.
    by rewrite lookup_total_insert_eq, lookup_partial_alter_eq. }
  specialize (Hloop (store_side g la s (Some (mkConnection a s))) eq_refl).
  split; [apply Hloop|].
  rewrite next_run; try done.
  - rewrite Hmod, Hloop. simpl. rewrite Ha. do 3 f_equal.
    subst s. side_cases t; side_cases d; reflexivity.
  - rewrite Hmod, Hloop. by intros ? [= <-].
Qed.

Lemma link_self_loop_witness :
  ∃ g', link 0 3 0 3 once_linked = Done js_undefined g'
        ∧ side_at g' 0 3 = Some (mkConnection 0 3)
        ∧ next (mkCursor 0 (Some 1%positive) 1) 2 g'
          = Done (Some (mkCursor 0 (Some 1%positive) ((1 + 2) mod 4))) g'.
Proof.
  apply (link_self_loop once_linked 0 1%positive 3 1 2);
    first [reflexivity | lia].
Defined.

(** ** More on grid *)

Lemma for_each_invariant {A} (I : QuadGraph → Prop) (body : A → M unit) l :
  (∀ x g g', x ∈ l → I g → body x g = Done tt g' → I g') →
  ∀ g g', I g → for_each l body g = Done tt g' → I g'.
Proof.
  induction l as [|x l IH]; intros Hbody g g' Hg Hrun.
  { simpl in Hrun. by injection Hrun as <-. }
  simpl in Hrun. unfold mbind at 1, M_bind at 1 in Hrun.
  destruct (body x g) as [[] g1|] eqn:Hx; [|done].
  eapply IH; [|eapply Hbody; [left| |]; done|done].
  intros y g2 g3 Hy. apply Hbody. by right.
Qed.

Lemma link_sound g a sa b sb v g' :
  sound_store g → 0 ≤ sa < 4 → 0 ≤ sb < 4 →
  link a sa b sb g = Done v g' → sound_store g'.
Proof.
  intros (Hnd & Hsym & Hin) Hra Hrb Hrun. split_and!.
  - destruct (link_keeps_store _ _ _ _ _ _ _ Hrun) as [-> _]. done.
  - exact (link_symmetric_aux g a sa b sb v g' Hnd Hsym Hrun).
  - exact (link_sides_aux g a sa b sb v g' Hnd Hin Hra Hrb Hrun).
Qed.

(** What one turn of the inner loop of [grid] keeps. *)
Lemma grid_cell_sound w i j g g' :
  sound_store g → grid_cell w i j g = Done tt g' →
  sound_store g' ∧ nodes g' = nodes g ∧ valuePool g' = valuePool g.
Proof.
  intros Hg. unfold grid_cell. unfold mbind at 1, M_bind at 1.
  destruct (decide (0 < i)).
  - unfold mbind at 1, M_bind at 1.
    destruct (link _ 3 _ 1 g) as [v1 g1|] eqn:H1; [|done]. simpl.
    assert (sound_store g1) as Hg1
      by (refine (link_sound _ _ _ _ _ _ _ Hg _ _ H1); lia).
    destruct (link_keeps_store _ _ _ _ _ _ _ H1) as [Hn1 Hp1].
    destruct (decide (0 < j)).
    + unfold mbind at 1, M_bind at 1.
      destruct (link _ 2 _ 0 g1) as [v2 g2|] eqn:H2; [|done]. simpl.
      intros [= <-].
      destruct (link_keeps_store _ _ _ _ _ _ _ H2) as [Hn2 Hp2].
      split_and!;
        [refine (link_sound _ _ _ _ _ _ _ Hg1 _ _ H2); lia|congruence..].
    + intros [= <-]. done.
  - simpl. destruct (decide (0 < j)).
    + unfold mbind at 1, M_bind at 1.
      destruct (link _ 2 _ 0 g) as [v2 g2|] eqn:H2; [|done]. simpl.
      intros [= <-].
      destruct (link_keeps_store _ _ _ _ _ _ _ H2) as [Hn2 Hp2].
      split_and!;
        [refine (link_sound _ _ _ _ _ _ _ Hg _ _ H2); lia|congruence..].
    + intros [= <-]. done.
Qed.

(** Whatever [grid] returns is a symmetric store of new arrays. *)
Lemma grid_sound w h g :
  grid w h = Done tt g →
  sound_store g
  ∧ Z.of_nat (length (nodes g)) = Z.max 0 (w * h)
  ∧ valuePool g = ∅.
Proof.
  destruct (populate_new (w * h)) as (g0 & Hrun0 & Hblank & Hlen0 & Hpool0).
  unfold grid. unfold mbind at 1, M_bind at 1. rewrite Hrun0. intros Hloops.
  pose (I := λ g1 : QuadGraph,
          sound_store g1 ∧ nodes g1 = nodes g0 ∧ valuePool g1 = valuePool g0).
  assert (I g) as (Hg & Hn & Hp).
  { eapply (for_each_invariant I); [|split_and!; [|done|done]|exact Hloops].
    - intros i g1 g2 _ Hg1 Hcol.
      eapply (for_each_invariant I); [|exact Hg1|exact Hcol].
      intros j g3 g4 _ (Hg3 & Hn3 & Hp3) Hcell.
      destruct (grid_cell_sound _ _ _ _ _ Hg3 Hcell) as (? & ? & ?).
      split_and!; [done|congruence..].
    - split; [apply Hblank|by apply blank_store_symmetric]. }
  split_and!; [done|by rewrite Hn|by rewrite Hp].
Qed.

Lemma seqZ_nonpos m n : n ≤ 0 → seqZ m n = [].
Proof. intros Hn. unfold seqZ. by replace (Z.to_nat n) with 0%nat by lia. Qed.

(** [grid] with a dimension that is not positive: the loops link
    nothing. *)
Lemma grid_idle_aux w h :
  w ≤ 0 ∨ h ≤ 0 →
  ∃ g, grid w h = Done tt g ∧ blank_store g.
Proof.
  intros Hdim.
  destruct (populate_new (w * h)) as (g0 & Hrun0 & Hblank & Hlen0 & Hpool0).
  exists g0. split; [|done].
  unfold grid. unfold mbind at 1, M_bind at 1. rewrite Hrun0.
  destruct Hdim as [Hw|Hh].
  - by rewrite seqZ_nonpos.
  - rewrite (seqZ_nonpos 0 h) by done. simpl.
    induction (seqZ 0 w) as [|i cols IH]; [done|].
    simpl. unfold mbind at 1, M_bind at 1. simpl. exact IH.
Qed.

(** [grid] with both dimensions positive, and the invariant of its loops
    once all cells are handled. *)
Lemma grid_run w h :
  1 ≤ w → 1 ≤ h →
  ∃ g, grid w h = Done tt g
       ∧ wired w h (list_to_set (column_cells w h (seqZ 0 w))) g.
Proof.
  intros Hw Hh.
  destruct (populate_new (w * h)) as (g0 & Hrun0 & Hblank & Hlen0 & Hpool0).
  destruct (grid_columns w h (seqZ 0 w) ∅ g0) as (g & Hrun & Hg).
  { apply NoDup_seqZ. }
  { intros i Hi%elem_of_seqZ. lia. }
  { intros. apply not_elem_of_empty. }
  { split_and!; [apply Hblank|nia|done|].
    intros k s _. rewrite blank_store_side_at by done.
    unfold expected. repeat case_decide; try done; destruct_and?;
      match goal with H : _ ∈ ∅ |- _ => by apply not_elem_of_empty in H end. }
  rewrite (right_id_L ∅ (∪)) in Hg.
  exists g. split; [|done].
  unfold grid. unfold mbind at 1, M_bind at 1. by rewrite Hrun0.
Qed.

(** X16: [grid(width, height)] returns for all integers [width] and
    [height], never raising a [TypeError].  The graph it returns has
    [max(0, width * height)] nodes, each array once, no value, every
    stored side in 0..3, and it is symmetric: every connection is answered
    by the connection that leads back. *)
Theorem grid_symmetric w h :
  ∃ g, grid w h = Done tt g
       ∧ length_ g = Done (Z.max 0 (w * h)) g
       ∧ NoDup (nodes g) ∧ symmetric g ∧ sides_in_range g
       ∧ valuePool g = ∅.
Proof.
  assert (∃ g, grid w h = Done tt g) as [g Hrun].
  { destruct (decide (1 ≤ w ∧ 1 ≤ h)) as [[Hw Hh]|Hdim].
    - destruct (grid_run w h Hw Hh) as (g & Hrun & _). eauto.
    - destruct (grid_idle_aux w h) as (g & Hrun & _); [lia|eauto]. }
  destruct (grid_sound w h g Hrun) as ((Hnd & Hsym & Hin) & Hlen & Hpool).
  exists g. split_and!; try done. unfold length_. by rewrite Hlen.
Qed.

(** X17: when [width] or [height] is not positive, [grid] links nothing:
    it returns [max(0, width * height)] nodes, all of whose slots are
    empty.  Two negative dimensions give a store that is not empty. *)
Theorem grid_not_positive w h :
  w ≤ 0 ∨ h ≤ 0 →
  ∃ g, grid w h = Done tt g
       ∧ length_ g = Done (Z.max 0 (w * h)) g
       ∧ ∀ k s, side_at g k s = None.
Proof.
  intros Hdim. destruct (grid_idle_aux w h Hdim) as (g & Hrun & Hblank).
  destruct (grid_sound w h g Hrun) as (_ & Hlen & _).
  exists g. split_and!; [done| |].
  - unfold length_. by rewrite Hlen.
  - intros k s. by apply blank_store_side_at.
Qed.

Lemma grid_not_positive_witness :
  ∃ g, grid (-2) (-3) = Done tt g
       ∧ length_ g = Done (Z.max 0 (-2 * -3)) g
       ∧ ∀ k s, side_at g k s = None.
Proof. apply grid_not_positive. lia. Defined.

Lemma bind_run {A B} (m : M A) (f : A → M B) g a g' :
  m g = Done a g' → (m ≫= f) g = f a g'.
Proof. intros Hm. unfold mbind, M_bind. by rewrite Hm. Qed.

(** The slots of the cell in column [i] and row [j] once the loops of
    [grid] are over. *)
Lemma wired_slots w h g i j :
  wired w h (list_to_set (column_cells w h (seqZ 0 w))) g →
  0 ≤ i < w → 0 ≤ j < h →
  side_at g (cell_index w i j) 3 =
    (if decide (0 < i) then Some (mkConnection (cell_index w i j - 1) 1) else None)
  ∧ side_at g (cell_index w i j) 1 =
    (if decide (i + 1 < w) then Some (mkConnection (cell_index w i j + 1) 3) else None)
  ∧ side_at g (cell_index w i j) 2 =
    (if decide (0 < j) then Some (mkConnection (cell_index w i j - w) 0) else None)
  ∧ side_at g (cell_index w i j) 0 =
    (if decide (j + 1 < h) then Some (mkConnection (cell_index w i j + w) 2) else None).
Proof.
  intros (Hnd & Hlen & Hpool & Hview) Hi Hj.
  pose proof (cell_index_range w h i j Hi Hj) as Hk.
  pose proof (cell_index_col w i j Hi) as Hcol.
  pose proof (cell_index_row w i j Hi (proj1 Hj)) as Hrow.
  assert (cell_index w i j ∈ column_cells w h (seqZ 0 w)) as Hin.
  { apply elem_of_all_cells. by exists i, j. }
  rewrite !Hview by done. unfold expected. simpl.
  split_and!; apply decide_ext; rewrite elem_of_list_to_set.
  - rewrite Hcol. tauto.
  - rewrite elem_of_all_cells. split.
    + intros [Hpos _]. destruct (decide (i + 1 < w)) as [|Hlast]; [done|].
      assert (i = w - 1) as -> by lia.
      replace (cell_index w (w - 1) j + 1) with (cell_index w 0 (j + 1)) in Hpos
        by (unfold cell_index; lia).
      rewrite cell_index_col in Hpos by lia. lia.
    + intros Hnext.
      assert (cell_index w i j + 1 = cell_index w (i + 1) j) as ->
        by (unfold cell_index; lia).
      rewrite cell_index_col by lia. split; [lia|].
      exists (i + 1), j. split_and!; (lia || done).
  - tauto.
  - rewrite elem_of_all_cells. split.
    + intros (i' & j' & Hi' & Hj' & Heq).
      pose proof (cell_index_range w h i' j' Hi' Hj') as Hk'.
      rewrite <- Heq in Hk'. unfold cell_index in Hk'. nia.
    + intros Hbelow. exists i, (j + 1). split_and!; [lia..|].
      unfold cell_index. lia.
Qed.

(** X18: walking on a grid.  On the graph [grid(width, height)] returns,
    the cursor built with turn 0 at the node of column [i] and row [j]
    has these neighbours: [next(0)] is the node one row on, at
    [index + width]; [next(1)] the node one column on, at [index + 1];
    [next(2)] the node one row back; [next(3)] the node one column back.
    Each is the cursor [build] returns for that index with turn 0, and
    each is [null] exactly when the grid ends on that side. *)
Theorem grid_navigation w h :
  1 ≤ w → 1 ≤ h →
  ∃ g, grid w h = Done tt g
    ∧ ∀ i j, 0 ≤ i < w → 0 ≤ j < h →
        let index := i + j * w in
        (∃ res, build index 0 g = Done res g ∧ is_Some (node res))
        ∧ (res ← build index 0; next res 0) g =
            (if decide (j + 1 < h) then arrive (index + w) 0 else mret None) g
        ∧ (res ← build index 0; next res 1) g =
            (if decide (i + 1 < w) then arrive (index + 1) 0 else mret None) g
        ∧ (res ← build index 0; next res 2) g =
            (if decide (0 < j) then arrive (index - w) 0 else mret None) g
        ∧ (res ← build index 0; next res 3) g =
            (if decide (0 < i) then arrive (index - 1) 0 else mret None) g.
Proof.
  intros Hw Hh. destruct (grid_run w h Hw Hh) as (g & Hrun & Hg).
  exists g. split; [done|]. intros i j Hi Hj index.
  fold (cell_index w i j) in index.
  destruct (wired_slots w h g i j Hg Hi Hj) as (H3 & H1 & H2 & H0).
  destruct Hg as (Hnd & Hlen & Hpool & Hview).
  pose proof (cell_index_range w h i j Hi Hj) as Hk. fold index in Hk.
  destruct (nodes_at_is_Some (nodes g) index) as [l Hl]; [lia|].
  assert (build index 0 g = Done (mkCursor index (Some l) 0) g) as Hbuild.
  { unfold build, get_node, mbind, M_bind, mret, M_ret. by rewrite Hl. }
  assert (∀ d c, 0 ≤ d < 4 → side_at g index d = Some c → 0 ≤ side c < 4 →
            0 ≤ num c < w * h → (side c + 2 - d + 4) mod 4 = 0 →
            (res ← build index 0; next res d) g = arrive (num c) 0 g) as Hstep.
  { intros d c Hd Hc Hside Hnum Hturn.
    destruct (nodes_at_is_Some (nodes g) (num c)) as [n Hn]; [lia|].
    rewrite (bind_run _ _ _ _ _ Hbuild).
    rewrite (next_run g index l 0 d); try done; try lia;
      rewrite Z.add_0_r, Z.mod_small by lia; rewrite Hc; [|by intros ? [= <-]].
    rewrite Hn, Hturn.
    unfold arrive, build, get_node, mbind, M_bind, mret, M_ret. by rewrite Hn. }
  assert (∀ d, 0 ≤ d < 4 → side_at g index d = None →
            (res ← build index 0; next res d) g = Done None g) as Hend.
  { intros d Hd Hc.
    rewrite (bind_run _ _ _ _ _ Hbuild).
    rewrite (next_run g index l 0 d); try done; try lia;
      rewrite Z.add_0_r, Z.mod_small by lia; rewrite Hc; done. }
  fold index in H0, H1, H2, H3.
  assert (0 < j → w ≤ index) as Hrow
    by (intros; apply (cell_index_row w i j); lia).
  assert (j + 1 < h → index + w < w * h) as Hbelow.
  { intros. pose proof (cell_index_range w h i (j + 1)) as Hr.
    unfold cell_index in *. subst index. lia. }
  assert (0 < i → 1 ≤ index) as Hleft by (subst index; unfold cell_index; nia).
  assert (i + 1 < w → index + 1 < w * h) as Hright.
  { intros. pose proof (cell_index_range w h (i + 1) j) as Hr.
    unfold cell_index in *. subst index. lia. }
  split_and!.
  - exists (mkCursor index (Some l) 0). split; [done|by eexists].
  - destruct (decide (j + 1 < h)).
    + by rewrite (Hstep 0 _ ltac:(lia) H0) by (simpl; lia || done).
    + by apply Hend.
  - destruct (decide (i + 1 < w)).
    + by rewrite (Hstep 1 _ ltac:(lia) H1) by (simpl; lia || done).
    + by apply Hend.
  - destruct (decide (0 < j)).
    + by rewrite (Hstep 2 _ ltac:(lia) H2) by (simpl; lia || done).
    + by apply Hend.
  - destruct (decide (0 < i)).
    + by rewrite (Hstep 3 _ ltac:(lia) H3) by (simpl; lia || done).
    + by apply Hend.
Qed.

Lemma grid_navigation_witness :
  ∃ g, grid 2 3 = Done tt g
    ∧ ∀ i j, 0 ≤ i < 2 → 0 ≤ j < 3 →
        let index := i + j * 2 in
        (∃ res, build index 0 g = Done res g ∧ is_Some (node res))
        ∧ (res ← build index 0; next res 0) g =
            (if decide (j + 1 < 3) then arrive (index + 2) 0 else mret None) g
        ∧ (res ← build index 0; next res 1) g =
            (if decide (i + 1 < 2) then arrive (index + 1) 0 else mret None) g
        ∧ (res ← build index 0; next res 2) g =
            (if decide (0 < j) then arrive (index - 2) 0 else mret None) g
        ∧ (res ← build index 0; next res 3) g =
            (if decide (0 < i) then arrive (index - 1) 0 else mret None) g.
Proof. apply (grid_navigation 2 3); lia. Defined.

(** ** Steps on a symmetric store *)

(** X19: on a symmetric store whose sides are in 0..3, every step can be
    undone: when [next(d)] on the cursor at a populated index, with turn
    and direction in 0..3, returns a cursor, [next] of the reverse
    direction on that cursor returns the cursor the step started from,
    with its index, node and turn. *)
Theorem step_back g idx l t d res' :
  symmetric g → sides_in_range g →
  nodes_at (nodes g) idx = Some l →
  0 ≤ t < 4 → 0 ≤ d < 4 →
  next (mkCursor idx (Some l) t) d g = Done (Some res') g →
  next res' (reverse d) g = Done (Some (mkCursor idx (Some l) t)) g.
Proof.
  intros Hsym Hin Hl Ht Hd Hrun.
  assert (0 ≤ (d + t) mod 4 < 4) as Hsa by (apply Z.mod_pos_bound; lia).
  rewrite (next_run g idx l t d) in Hrun by (try done; apply Hin).
  destruct (side_at g idx ((d + t) mod 4)) as [c|] eqn:Hc; [|done].
  destruct (nodes_at (nodes g) (num c)) as [n|] eqn:Hn; [|done].
  injection Hrun as <-.
  pose proof (Hin _ _ _ Hc) as Hsb. pose proof (Hsym _ _ _ Hc) as Hback.
  assert (0 ≤ reverse d < 4) as Hrd by (apply Z.mod_pos_bound; lia).
  assert ((reverse d + (side c + 2 - d + 4) mod 4) mod 4 = side c) as Hside.
  { unfold reverse. clear Hc Hback Hsa. destruct c as [k sc]. simpl in *.
    side_cases sc; side_cases d; reflexivity. }
  assert (((d + t) mod 4 + 2 - reverse d + 4) mod 4 = t) as Hturn
    by (unfold reverse; clear Hsa Hrd; side_cases t; side_cases d; reflexivity).
  rewrite (next_run g (num c) n _ (reverse d)); try done.
  - rewrite Hside, Hback. simpl. by rewrite Hl, Hturn.
  - apply Z.mod_pos_bound. lia.
  - rewrite Hside, Hback. intros ? [= <-]. done.
Qed.

Lemma step_back_witness :
  next (mkCursor 1 (Some 2%positive) 2) (reverse 2) once_linked
  = Done (Some (mkCursor 0 (Some 1%positive) 2)) once_linked.
Proof.
  apply (step_back once_linked 0 1%positive 2 2).
  - apply once_linked_symmetric.
  - apply once_linked_symmetric.
  - reflexivity.
  - lia.
  - lia.
  - reflexivity.
Defined.
